(** * aiohttp.web_jobs: Job and JobRunner

    A shallow embedding of [aiohttp/web_jobs.py].  The two classes are
    embedded as state transformers over a [World] that holds the one
    [JobRunner], the heap of [Job] objects and the trace of the calls the
    module makes into its collaborators (the asyncio event loop, the
    [async_timeout] context manager and the exception handlers).

    The collaborators are not part of the module.  Their behaviour is
    embedded from the asyncio and async_timeout documentation:

    - [Future.exception()] returns the exception of a finished task,
      [None] for a task that returned, raises [CancelledError] for a
      cancelled task and [InvalidStateError] for a pending one;
    - awaiting a task ([yield from task]) replays its ending in the
      waiter: the result, the exception, or [CancelledError];
    - done callbacks run in registration order, so [Job._done_callback]
      (registered in [Job.__init__]) has run before a coroutine waiting
      for the task resumes; an exception escaping a callback is caught
      by the loop and logged;
    - [async_timeout.timeout(d)] arms a timer unless [d is None], with
      [loop.call_later(d, ...)], which wants a number; when the timer
      fires it cancels the waiting task, and cancelling a task that waits
      for another task cancels that one; the waiter resumes when the
      awaited task has ended, and [__exit__] turns the [CancelledError]
      it then receives into [TimeoutError], and nothing else;
    - [asyncio.wait] runs the coroutines it is given to their end and
      keeps what they raise.

    Time is not part of the embedding: a wait is settled by a
    [resolution] that says how the task ends and on which side of the
    timer.

    The runs of [reachable] are made of whole calls: a coroutine runs to
    its end before the next call starts, and the end of a task comes with
    the run of its done callback.  The loop schedules that callback with
    [call_soon], so the program also passes through states in which a
    task has ended and its callback has not run yet, and it can have two
    waits or closes suspended on one job; such states are written out
    where a statement is about them ([set_job j (set_task (Finished r))]
    is the first kind). *)

From stdpp Require Import gmap strings list.

(** ** Python values and exceptions *)

Inductive pyobj : Type :=
  | PyNone
  | PyBool (b : bool)
  | PyInt (z : Z)
  | PyFloat (m e : Z)          (* the decimal m * 10^e *)
  | PyStr (s : string)
  | PyFunc (f : nat).          (* a callable, named by f *)

Inductive exn : Type :=
  | CancelledError
  | TimeoutError
  | InvalidStateError
  | AttributeError
  | KeyError
  | TypeError
  | ValueError
  | UserError (n : nat).       (* any other exception class *)

#[global] Instance pyobj_eq_dec : EqDecision pyobj.
Proof. solve_decision. Defined.

#[global] Instance exn_eq_dec : EqDecision exn.
Proof. solve_decision. Defined.

(** [callable(h)] *)
Definition callable (h : pyobj) : bool :=
  match h with PyFunc _ => true | _ => false end.

(** What [loop.call_later(d, ...)] accepts as a delay. *)
Definition is_number (d : pyobj) : bool :=
  match d with PyBool _ | PyInt _ | PyFloat _ _ => true | _ => false end.

(** ** Tasks *)

(** How a coroutine ends: [return v] or [raise e].  A task whose
    coroutine ends with [raise CancelledError] is a cancelled task. *)
Inductive ending : Type :=
  | Return (v : pyobj)
  | Raise (e : exn).

Inductive task : Type :=
  | Pending
  | Finished (r : ending).

Definition cancelled (r : ending) : bool :=
  match r with Raise CancelledError => true | _ => false end.

(** [task.done()] *)
Definition Task_done (t : task) : bool :=
  match t with Pending => false | Finished _ => true end.

(** ** Objects *)

Definition traceback : Type := list string.

Inductive runner_ref : Type := Owner.

Record Job : Type := mkJob {
  _task : task;
  _manager : option runner_ref;
  _explicit_wait : bool;
  _source_traceback : option traceback
}.

Record JobRunner : Type := mkJobRunner {
  _jobs : gset nat;
  _timeout : pyobj;
  _exception_handler : pyobj
}.

(** The context dictionary handed to an exception handler; the key
    ['source_traceback'] is optional. *)
Record context : Type := mkContext {
  message : string;
  job : nat;
  exception : exn;
  source_traceback : option traceback
}.

Inductive sink : Type :=
  | Handler (f : nat)          (* the callable configured on the runner *)
  | LoopDefault.               (* loop.call_exception_handler *)

(** What happens between the module and its collaborators, in order. *)
Inductive event : Type :=
  | EvCancel (j : nat)                   (* job j: task.cancel() *)
  | EvTimeout (j : nat) (d : pyobj)      (* async_timeout.timeout(timeout=d) around the task of j *)
  | EvExpired (j : nat)                  (* that timer fired while the task of j was pending *)
  | EvReport (s : sink) (c : context)    (* handler(context) *)
  | EvCallbackError (j : nat) (e : exn). (* e escaped the done callback of j; logged by the loop *)

Record World : Type := mkWorld {
  loop_debug : bool;           (* loop.get_debug() *)
  runner : JobRunner;
  heap : list Job;             (* a job is named by its position *)
  trace : list event
}.

Definition set_runner (f : JobRunner → JobRunner) (w : World) : World :=
  mkWorld (loop_debug w) (f (runner w)) (heap w) (trace w).

Definition set_job (j : nat) (f : Job → Job) (w : World) : World :=
  mkWorld (loop_debug w) (runner w) (alter f j (heap w)) (trace w).

Definition log (ev : event) (w : World) : World :=
  mkWorld (loop_debug w) (runner w) (heap w) (trace w ++ [ev]).

(** ** Coroutines and methods as state transformers *)

(** A call returns, raises, or never resumes its caller. *)
Inductive result (A : Type) : Type :=
  | Returned (a : A)
  | Raised (e : exn)
  | Blocked.
Arguments Returned {A} a.
Arguments Raised {A} e.
Arguments Blocked {A}.

Definition M (A : Type) : Type := World → World * result A.

#[global] Instance M_ret : MRet M := λ A a w, (w, Returned a).

#[global] Instance M_bind : MBind M := λ A B k m w,
  match m w with
  | (w', Returned a) => k a w'
  | (w', Raised e) => (w', Raised e)
  | (w', Blocked) => (w', Blocked)
  end.

Definition raise {A} (e : exn) : M A := λ w, (w, Raised e).
Definition block {A} : M A := λ w, (w, Blocked).
Definition get_world : M World := λ w, (w, Returned w).
Definition update (f : World → World) : M unit := λ w, (f w, Returned tt).
Definition emit (ev : event) : M unit := update (log ev).

(** [try: m  except <classes>: h]; [h e = None] when no clause matches. *)
Definition try_except {A} (m : M A) (h : exn → option (M A)) : M A := λ w,
  match m w with
  | (w', Raised e) => match h e with Some k => k w' | None => (w', Raised e) end
  | other => other
  end.

(** Dereference [self].  A name that denotes no object has no Python
    counterpart; a call through it never gets anywhere. *)
Definition self_ (j : nat) : M Job := λ w,
  match heap w !! j with
  | Some o => (w, Returned o)
  | None => (w, Blocked)
  end.

(** [self._manager.<attr>]: [AttributeError] on [None]. *)
Definition self_manager (j : nat) : M JobRunner :=
  o ← self_ j;
  match _manager o with
  | Some Owner => w ← get_world; mret (runner w)
  | None => raise AttributeError
  end.

(** ** The event loop *)

(** [task.cancel()] on the task of job [j]. *)
Definition Task_cancel (j : nat) : M unit := emit (EvCancel j).

(** [task.exception()] *)
Definition Task_exception (t : task) : M (option exn) :=
  match t with
  | Pending => raise InvalidStateError
  | Finished (Return _) => mret None
  | Finished (Raise CancelledError) => raise CancelledError
  | Finished (Raise e) => mret (Some e)
  end.

(** What [yield from task] gives the waiter once the task has ended. *)
Definition outcome (r : ending) : result pyobj :=
  match r with
  | Return v => Returned v
  | Raise e => Raised e
  end.

Definition replay (r : ending) : M pyobj := λ w, (w, outcome r).

(** How the loop settles a wait for a pending task.  The coroutine of a
    job is opaque, so the way its task ends is an input of every wait:
    the task may end on its own or in answer to a [cancel()], with any
    ending.  When a timer fires first, the waiter resumes only once the
    task has ended; a task that never ends leaves the waiter blocked. *)
Inductive resolution : Type :=
  | InTime (r : ending)   (* the task ends with r before any timer fires *)
  | Late (r : ending)     (* the timer fires first and cancels; then the task ends with r *)
  | Never.                (* the task never ends *)

(** ** JobRunner: reporting *)

(** [JobRunner.call_exception_handler(context)].  Handlers are taken to
    record the context and return. *)
Definition JobRunner_call_exception_handler (ctx : context) : M unit :=
  w ← get_world;
  match _exception_handler (runner w) with
  | PyNone => emit (EvReport LoopDefault ctx)
  | PyFunc f => emit (EvReport (Handler f) ctx)
  | _ => raise TypeError
  end.

(** ** Job *)

Definition set_task (t : task) (o : Job) : Job :=
  mkJob t (_manager o) (_explicit_wait o) (_source_traceback o).

Definition set_manager (m : option runner_ref) (o : Job) : Job :=
  mkJob (_task o) m (_explicit_wait o) (_source_traceback o).

Definition set_explicit_wait (b : bool) (o : Job) : Job :=
  mkJob (_task o) (_manager o) b (_source_traceback o).

Definition jobs_add (j : nat) (r : JobRunner) : JobRunner :=
  mkJobRunner ({[j]} ∪ _jobs r) (_timeout r) (_exception_handler r).

Definition jobs_discard (j : nat) (r : JobRunner) : JobRunner :=
  mkJobRunner (_jobs r ∖ {[j]}) (_timeout r) (_exception_handler r).

Definition alloc (o : Job) (w : World) : World :=
  mkWorld (loop_debug w) (runner w) (heap w ++ [o]) (trace w).

(** [traceback.extract_stack(f)]: the frames from the outermost one down
    to [f]; [frames] lists them innermost first. *)
Definition extract_stack (frames : list string) : traceback := rev frames.

(** [Job.__init__(coro, manager, loop)].  [stack] is the call stack
    inside the constructor, innermost frame first; [sys._getframe(2)] is
    what is left of it without its two innermost frames.  The coroutine
    is opaque: how it ends is decided by the loop. *)
Definition Job_init (stack : list string) : M nat :=
  w ← get_world;
  let self := length (heap w) in
  let tb := if loop_debug w
            then Some (extract_stack (drop 2 stack))
            else None in
  update (alloc (mkJob Pending (Some Owner) false tb));;
  update (set_runner (jobs_add self));;
  mret self.

(** [self._manager._jobs.remove(self)] *)
Definition manager_jobs_remove (j : nat) : M unit :=
  m ← self_manager j;
  if decide (j ∈ _jobs m)
  then update (set_runner (jobs_discard j))
  else raise KeyError.

Definition make_context (msg : string) (j : nat) (exc : exn) (o : Job) : context :=
  mkContext msg j exc (_source_traceback o).

(** [Job._done_callback(task)] *)
Definition Job__done_callback (j : nat) : M unit :=
  manager_jobs_remove j;;
  o ← self_ j;
  exc ← Task_exception (_task o);
  match exc with
  | Some e =>
      if negb (_explicit_wait o)
      then self_manager j;;
           JobRunner_call_exception_handler
             (make_context "Job processing failed" j e o)
      else mret tt
  | None => mret tt
  end;;
  update (set_job j (set_manager None)).

(** The loop runs the task of job [j] to its ending [r] and then runs its
    done callback; an exception escaping the callback is logged. *)
Definition loop_finish (j : nat) (r : ending) (w : World) : World :=
  match heap w !! j with
  | Some o =>
      match _task o with
      | Pending =>
          match Job__done_callback j (set_job j (set_task (Finished r)) w) with
          | (w', Raised e) => log (EvCallbackError j e) w'
          | (w', _) => w'
          end
      | Finished _ => w
      end
  | None => w
  end.

(** [async_timeout.timeout.__enter__]: no timer for [None]; otherwise
    [loop.call_later(d, ...)], which takes a number. *)
Definition timeout_enter (d : pyobj) : M unit :=
  if decide (d = PyNone) then mret tt
  else if is_number d then mret tt else raise TypeError.

(** [yield from self._task] inside the [with] block. *)
Definition await_task (j : nat) (d : pyobj) (env : resolution) : M pyobj :=
  o ← self_ j;
  match _task o with
  | Finished r => replay r
  | Pending =>
      match env with
      | InTime r => update (loop_finish j r);; replay r
      | Late r =>
          if decide (d = PyNone)
          then update (loop_finish j r);; replay r
          else emit (EvExpired j);;
               update (loop_finish j r);;
               if cancelled r then raise TimeoutError else replay r
      | Never => block
      end
  end.

(** [with async_timeout.timeout(timeout=d): yield from self._task] *)
Definition bounded_wait (j : nat) (d : pyobj) (env : resolution) : M pyobj :=
  emit (EvTimeout j d);;
  timeout_enter d;;
  await_task j d env.

(** [Job.done()] *)
Definition Job_done (j : nat) : M bool :=
  o ← self_ j; mret (Task_done (_task o)).

(** [Job.close()]: first its [except] clauses, then the method. *)
Definition Job_close_except (j : nat) (exc : exn) : option (M unit) :=
  match exc with
  | CancelledError => Some (mret tt)
  | TimeoutError => Some (
      o ← self_ j;
      self_manager j;;
      JobRunner_call_exception_handler
        (make_context "Job closing reached timeout" j exc o))
  | _ => None
  end.

Definition Job_close (j : nat) (env : resolution) : M unit :=
  Task_cancel j;;
  try_except
    (m ← self_manager j;
     bounded_wait j (_timeout m) env;;
     mret tt)
    (Job_close_except j).

(** [Job._wait(timeout)].  The [close()] of the handler takes the same
    [env]; the task has ended whenever the handler runs. *)
Definition Job__wait (j : nat) (timeout : pyobj) (env : resolution) : M pyobj :=
  try_except
    (bounded_wait j timeout env)
    (λ exc,
       match exc with
       | TimeoutError => Some (Job_close j env;; raise exc)
       | _ => None
       end).

(** [Job.wait(timeout=None)] *)
Definition Job_wait (j : nat) (timeout : pyobj) (env : resolution) : M pyobj :=
  update (set_job j (set_explicit_wait true));;
  Job__wait j timeout env.

(** ** JobRunner *)

(** [JobRunner(loop=loop, timeout=0.1)] *)
Definition JobRunner_init (debug : bool) (timeout : pyobj) : World :=
  mkWorld debug (mkJobRunner ∅ timeout PyNone) [] [].

Definition default_timeout : pyobj := PyFloat 1 (-1).

(** [JobRunner.exec(coro)], called from a stack [stack]. *)
Definition JobRunner_exec (stack : list string) : M nat :=
  Job_init ("__init__" :: "exec" :: stack)%string.

(** [iter(runner)], [len(runner)], [job in runner] *)
Definition JobRunner_iter : M (list nat) :=
  w ← get_world; mret (elements (_jobs (runner w))).

Definition JobRunner_len : M nat :=
  w ← get_world; mret (size (_jobs (runner w))).

Definition JobRunner_contains (j : nat) : M bool :=
  w ← get_world; mret (bool_decide (j ∈ _jobs (runner w))).

(** [asyncio.wait(coros)]: every coroutine runs as a task of its own, and
    the caller resumes when all have ended; what they return or raise
    stays in their tasks.  The coroutines handed over below each work on
    a job of their own, so running them one after the other is one of
    the schedules of the loop, and the others differ from it only in the
    order of the trace. *)
Fixpoint run_all {A} (cs : list (M A)) : M unit :=
  match cs with
  | [] => mret tt
  | c :: cs' => λ w,
      match c w with
      | (w', Blocked) => (fst (run_all cs' w'), Blocked)
      | (w', _) => run_all cs' w'
      end
  end.

Definition asyncio_wait {A} (cs : list (M A)) : M unit :=
  match cs with
  | [] => raise ValueError
  | _ => run_all cs
  end.

(** [JobRunner.wait(timeout=None)]; [env j] settles the wait for job [j].
    The list comprehension walks the set once, when the call starts. *)
Definition JobRunner_wait (timeout : pyobj) (env : nat → resolution) : M unit :=
  w ← get_world;
  let jobs := _jobs (runner w) in
  if decide (jobs = ∅) then mret tt
  else asyncio_wait ((λ j, Job__wait j timeout (env j)) <$> elements jobs).

(** [JobRunner.close()] *)
Definition JobRunner_close (env : nat → resolution) : M unit :=
  w ← get_world;
  let jobs := _jobs (runner w) in
  if decide (jobs = ∅) then mret tt
  else asyncio_wait ((λ j, Job_close j (env j)) <$> elements jobs).

(** [JobRunner.get_timeout()], [JobRunner.set_timeout(timeout)] *)
Definition JobRunner_get_timeout : M pyobj :=
  w ← get_world; mret (_timeout (runner w)).

Definition JobRunner_set_timeout (timeout : pyobj) : M unit :=
  update (set_runner (λ r, mkJobRunner (_jobs r) timeout (_exception_handler r))).

(** [JobRunner.get_exception_handler()],
    [JobRunner.set_exception_handler(handler)] *)
Definition JobRunner_get_exception_handler : M pyobj :=
  w ← get_world; mret (_exception_handler (runner w)).

Definition JobRunner_set_exception_handler (handler : pyobj) : M unit :=
  if negb (bool_decide (handler = PyNone)) && negb (callable handler)
  then raise TypeError
  else update (set_runner (λ r, mkJobRunner (_jobs r) (_timeout r) handler)).

(** ** Runs of the system *)

(** What a client of the module or the loop can do next. *)
Inductive action : Type :=
  | DoExec (stack : list string)
  | DoJobWait (j : nat) (timeout : pyobj) (env : resolution)
  | DoJobClose (j : nat) (env : resolution)
  | DoWait (timeout : pyobj) (env : nat → resolution)
  | DoClose (env : nat → resolution)
  | DoSetTimeout (d : pyobj)
  | DoSetExceptionHandler (h : pyobj)
  | DoFinish (j : nat) (r : ending).   (* the loop runs a task to its end *)

Definition perform (a : action) (w : World) : World :=
  match a with
  | DoExec stack => (JobRunner_exec stack w).1
  | DoJobWait j timeout env => (Job_wait j timeout env w).1
  | DoJobClose j env => (Job_close j env w).1
  | DoWait timeout env => (JobRunner_wait timeout env w).1
  | DoClose env => (JobRunner_close env w).1
  | DoSetTimeout d => (JobRunner_set_timeout d w).1
  | DoSetExceptionHandler h => (JobRunner_set_exception_handler h w).1
  | DoFinish j r => loop_finish j r w
  end.

Inductive reachable : World → Prop :=
  | reach_init debug timeout : reachable (JobRunner_init debug timeout)
  | reach_step a w : reachable w → reachable (perform a w).

(** ** Invariant of the reachable worlds *)

(** The back reference of a job: kept while the task is pending, dropped
    by the done callback, except that the callback of a cancelled task
    stops at [task.exception()]. *)
Definition job_ok (o : Job) : Prop :=
  _manager o = match _task o with
               | Pending => Some Owner
               | Finished r => if cancelled r then Some Owner else None
               end.

Definition handler_ok (h : pyobj) : Prop := h = PyNone ∨ callable h = true.

Definition timeout_ok (d : pyobj) : Prop := d = PyNone ∨ is_number d = true.

Definition event_ok (ev : event) : Prop :=
  match ev with
  | EvCallbackError _ e => e = CancelledError
  | _ => True
  end.

Record inv (w : World) : Prop := mkInv {
  inv_registry : ∀ j,
    j ∈ _jobs (runner w) ↔ ∃ o, heap w !! j = Some o ∧ _task o = Pending;
  inv_jobs : ∀ j o, heap w !! j = Some o → job_ok o;
  inv_handler : handler_ok (_exception_handler (runner w));
  inv_trace : Forall event_ok (trace w)
}.

(** A relation between the world before and after that every step of a
    computation respects. *)
Definition preserves (P : World → World → Prop) {A} (m : M A) : Prop :=
  ∀ w, P w (m w).1.

Definition keeps_inv (w w' : World) : Prop := inv w → inv w'.

Definition keeps_flags (w w' : World) : Prop :=
  _explicit_wait <$> heap w' = _explicit_wait <$> heap w.

Definition grows_trace (w w' : World) : Prop := trace w `prefix_of` trace w'.

Definition keeps_finished (w w' : World) : Prop :=
  ∀ j o, heap w !! j = Some o → Task_done (_task o) = true →
         ∃ o', heap w' !! j = Some o' ∧ _task o' = _task o.

Definition keeps_shape (w w' : World) : Prop :=
  length (heap w') = length (heap w) ∧
  _timeout (runner w') = _timeout (runner w).

(** The handler that a report of the runner reaches. *)
Definition sink_of (w : World) : sink :=
  match _exception_handler (runner w) with
  | PyFunc f => Handler f
  | _ => LoopDefault
  end.

(** The job [o] once its task has ended with [r] and its done callback
    has run, and what that callback made visible. *)
Definition finished_job (o : Job) (r : ending) : Job :=
  mkJob (Finished r) (if cancelled r then Some Owner else None)
    (_explicit_wait o) (_source_traceback o).

Definition finish_events (w : World) (j : nat) (o : Job) (r : ending) :
    list event :=
  match r with
  | Return _ => []
  | Raise e =>
      if cancelled r then [EvCallbackError j CancelledError]
      else if _explicit_wait o then []
      else [EvReport (sink_of w) (make_context "Job processing failed" j e o)]
  end.

Definition finished_world (w : World) (j : nat) (o : Job) (r : ending) :
    World :=
  mkWorld (loop_debug w) (jobs_discard j (runner w))
    (<[j := finished_job o r]> (heap w))
    (trace w ++ finish_events w j o r).
Arguments finished_world : simpl never.

(** ** Observations *)

(** The explicit-wait flag and the task of job [j], if there is such a job. *)
Definition flag_of (j : nat) (w : World) : option bool :=
  _explicit_wait <$> heap w !! j.

Definition task_of (j : nat) (w : World) : option task :=
  _task <$> heap w !! j.

(** The contexts that the handlers have received about job [j]. *)
Definition is_report (ev : event) : bool :=
  match ev with EvReport _ _ => true | _ => false end.

Definition report_of (j : nat) (ev : event) : option context :=
  match ev with
  | EvReport _ c => if decide (job c = j) then Some c else None
  | _ => None
  end.

Definition reports (j : nat) (tr : list event) : list context :=
  omap (report_of j) tr.

(** A step that changes nothing but the trace, and reports nothing. *)
Definition quiet (w w' : World) : Prop :=
  loop_debug w' = loop_debug w ∧ runner w' = runner w ∧ heap w' = heap w ∧
  ∃ evs, trace w' = trace w ++ evs ∧ Forall (λ ev, is_report ev = false) evs.

(** A step during which the pending task of job [j] ends: the job leaves
    the registry, and at most one report is made, about [j]. *)
Definition ends_job (j : nat) (w w' : World) : Prop :=
  ∃ o r evs,
    heap w !! j = Some o ∧ _task o = Pending ∧
    loop_debug w' = loop_debug w ∧
    runner w' = jobs_discard j (runner w) ∧
    heap w' = <[j := finished_job o r]> (heap w) ∧
    trace w' = trace w ++ evs ∧
    length (reports j evs) ≤ 1 ∧
    ∀ i, i ≠ j → reports i evs = [].

Definition step_on (j : nat) (w w' : World) : Prop :=
  quiet w w' ∨ ends_job j w w'.

(** What a step on another job leaves alone. *)
Definition same_for (j : nat) (w w' : World) : Prop :=
  heap w' !! j = heap w !! j ∧
  reports j (trace w') = reports j (trace w) ∧
  _exception_handler (runner w') = _exception_handler (runner w) ∧
  _timeout (runner w') = _timeout (runner w) ∧
  trace w `prefix_of` trace w'.

(** No job is reported about while its task is pending, and none more
    than once. *)
Definition reported_once (w : World) : Prop :=
  ∀ j, match heap w !! j with
       | Some o =>
           if Task_done (_task o) then length (reports j (trace w)) ≤ 1
           else reports j (trace w) = []
       | None => reports j (trace w) = []
       end.

(** The reports that a task has failed. *)
Definition failures (j : nat) (tr : list event) : list context :=
  filter (λ c, message c = "Job processing failed"%string) (reports j tr).

(** Several actions, one after the other. *)
Definition perform_all (l : list action) (w : World) : World :=
  foldl (λ w a, perform a w) w l.

Definition sets_timeout (a : action) : bool :=
  match a with DoSetTimeout _ => true | _ => false end.

Definition keeps_timeout (w w' : World) : Prop :=
  _timeout (runner w') = _timeout (runner w).

(** The ending that a resolution brings, if any. *)
Definition ending_of (env : resolution) : option ending :=
  match env with
  | InTime r | Late r => Some r
  | Never => None
  end.

(** ** Sample worlds *)

(** A runner in debug mode with the default grace period, and the same
    after one [exec] from a handler: job [0] is running. *)
Definition world0 : World := JobRunner_init true default_timeout.

Definition world1 : World := perform (DoExec ["handler"; "serve"]%string) world0.

Ltac unfold_monad :=
  unfold mbind, M_bind, mret, M_ret, raise, block, get_world, update, emit,
    try_except, self_, Task_cancel in *.

(** * Properties *)

Section Preserves.
Context (P : World → World → Prop).
Hypothesis P_refl : ∀ w, P w w.
Hypothesis P_trans : ∀ w1 w2 w3, P w1 w2 → P w2 w3 → P w1 w3.

Lemma preserves_ret {A} (a : A) : preserves P (mret a).
Proof. intros w. apply P_refl. Qed.

Lemma preserves_raise {A} e : preserves P (@raise A e).
Proof. intros w. apply P_refl. Qed.

Lemma preserves_block {A} : preserves P (@block A).
Proof. intros w. apply P_refl. Qed.

Lemma preserves_get_world : preserves P get_world.
Proof. intros w. apply P_refl. Qed.

Lemma preserves_self j : preserves P (self_ j).
Proof. intros w. unfold self_. destruct (heap w !! j); apply P_refl. Qed.

Lemma preserves_update f : (∀ w, P w (f w)) → preserves P (update f).
Proof. intros H w. apply H. Qed.

Lemma preserves_bind {A B} (m : M A) (k : A → M B) :
  preserves P m → (∀ a, preserves P (k a)) → preserves P (m ≫= k).
Proof.
  intros Hm Hk w. unfold mbind, M_bind.
  specialize (Hm w). destruct (m w) as [w' [a| |]]; simpl in *; auto.
  eapply P_trans; [exact Hm | apply Hk].
Qed.

Lemma preserves_try {A} (m : M A) h :
  preserves P m → (∀ e k, h e = Some k → preserves P k) →
  preserves P (try_except m h).
Proof.
  intros Hm Hh w. unfold try_except.
  specialize (Hm w). destruct (m w) as [w' [a|e|]]; simpl in *; auto.
  destruct (h e) as [k|] eqn:E; simpl; auto.
  eapply P_trans; [exact Hm | eapply Hh, E].
Qed.

Lemma preserves_self_manager j : preserves P (self_manager j).
Proof.
  apply preserves_bind; [apply preserves_self|].
  intros o. destruct (_manager o) as [[]|].
  - apply preserves_bind; [apply preserves_get_world|].
    intros; apply preserves_ret.
  - apply preserves_raise.
Qed.

Lemma preserves_run_all {A} (cs : list (M A)) :
  Forall (preserves P) cs → preserves P (run_all cs).
Proof.
  induction 1 as [|c cs Hc _ IH]; intros w; simpl; [apply P_refl|].
  specialize (Hc w). destruct (c w) as [w' [a|e|]]; simpl in *;
    (eapply P_trans; [exact Hc | apply IH]).
Qed.

Lemma preserves_asyncio_wait {A} (cs : list (M A)) :
  Forall (preserves P) cs → preserves P (asyncio_wait cs).
Proof.
  intros H. destruct cs; [apply preserves_raise|].
  now apply preserves_run_all.
Qed.
End Preserves.

(** Goals [preserves P m] are settled by following the structure of [m]. *)
Ltac preserves_step :=
  first
    [ assumption
    | match goal with |- ∀ _, _ => intro end
    | apply preserves_ret
    | apply preserves_raise
    | apply preserves_block
    | apply preserves_get_world
    | apply preserves_self
    | apply preserves_self_manager
    | apply preserves_bind
    | case_decide
    | case_match ].

Ltac preserves_tac := repeat preserves_step.

Tactic Notation "preserves_tac" "using" tactic3(tac) :=
  repeat first [tac | preserves_step].

(** The done callback and the loop step respect every relation that the
    elementary updates respect. *)
Section Finish.
Context (P : World → World → Prop).
Hypothesis P_refl : ∀ w, P w w.
Hypothesis P_trans : ∀ w1 w2 w3, P w1 w2 → P w2 w3 → P w1 w3.
Hypothesis P_log : ∀ ev w, P w (log ev w).
Hypothesis P_task : ∀ j t w, P w (set_job j (set_task t) w).
Hypothesis P_manager : ∀ j m w, P w (set_job j (set_manager m) w).
Hypothesis P_discard : ∀ j w, P w (set_runner (jobs_discard j) w).

Lemma preserves_call_exception_handler ctx :
  preserves P (JobRunner_call_exception_handler ctx).
Proof.
  unfold JobRunner_call_exception_handler.
  preserves_tac; apply preserves_update; auto.
Qed.

Lemma preserves_done_callback j : preserves P (Job__done_callback j).
Proof.
  unfold Job__done_callback, manager_jobs_remove, Task_exception.
  preserves_tac;
    try apply preserves_call_exception_handler;
    apply preserves_update; auto.
Qed.

Lemma loop_finish_respects j r w : P w (loop_finish j r w).
Proof.
  unfold loop_finish. destruct (heap w !! j) as [o|]; [|auto].
  destruct (_task o); [|auto].
  pose proof (preserves_done_callback j
                (set_job j (set_task (Finished r)) w)) as H.
  destruct (Job__done_callback _ _) as [w' [[]|e|]]; simpl in H;
    eauto using P_trans.
Qed.
End Finish.

(** The coroutines respect every relation that logging and the loop step
    respect. *)
Section Coroutines.
Context (P : World → World → Prop).
Hypothesis P_refl : ∀ w, P w w.
Hypothesis P_trans : ∀ w1 w2 w3, P w1 w2 → P w2 w3 → P w1 w3.
Hypothesis P_log : ∀ ev w, event_ok ev → P w (log ev w).
Hypothesis P_finish : ∀ j r w, P w (loop_finish j r w).

Lemma preserves_emit ev : event_ok ev → preserves P (emit ev).
Proof. intros H. apply preserves_update. auto. Qed.

Lemma preserves_report ctx :
  preserves P (JobRunner_call_exception_handler ctx).
Proof.
  unfold JobRunner_call_exception_handler.
  preserves_tac; now apply preserves_emit.
Qed.

Lemma preserves_replay r : preserves P (replay r).
Proof. intros w. apply P_refl. Qed.

Lemma preserves_bounded_wait j d env : preserves P (bounded_wait j d env).
Proof.
  unfold bounded_wait, timeout_enter, await_task.
  preserves_tac using (apply preserves_replay);
    first [now apply preserves_emit | apply preserves_update; auto].
Qed.

Lemma preserves_Job_close j env : preserves P (Job_close j env).
Proof.
  unfold Job_close, Task_cancel.
  apply preserves_bind; [assumption|now apply preserves_emit|intros _].
  apply preserves_try; auto.
  - preserves_tac using (apply preserves_bounded_wait).
  - intros e k Hk. destruct e; simpl in Hk; simplify_eq;
      preserves_tac using (apply preserves_report).
Qed.

Lemma preserves_Job__wait j timeout env :
  preserves P (Job__wait j timeout env).
Proof.
  unfold Job__wait. apply preserves_try; auto using preserves_bounded_wait.
  intros e k Hk. destruct e; simplify_eq.
  apply preserves_bind; auto using preserves_Job_close, preserves_raise.
Qed.

Lemma preserves_JobRunner_wait timeout env :
  preserves P (JobRunner_wait timeout env).
Proof.
  unfold JobRunner_wait.
  apply preserves_bind; auto using preserves_get_world. intros w.
  case_decide; auto using preserves_ret.
  apply preserves_asyncio_wait; auto.
  apply Forall_fmap, Forall_forall. intros j _.
  apply preserves_Job__wait.
Qed.

Lemma preserves_JobRunner_close env : preserves P (JobRunner_close env).
Proof.
  unfold JobRunner_close.
  apply preserves_bind; auto using preserves_get_world. intros w.
  case_decide; auto using preserves_ret.
  apply preserves_asyncio_wait; auto.
  apply Forall_fmap, Forall_forall. intros j _.
  apply preserves_Job_close.
Qed.
End Coroutines.

(** ** The done callback *)

(** What [Job._done_callback] does for a job that is still registered and
    attached, by the ending of its task. *)
Lemma done_callback_run w j o r :
  heap w !! j = Some o →
  _task o = Finished r →
  _manager o = Some Owner →
  j ∈ _jobs (runner w) →
  handler_ok (_exception_handler (runner w)) →
  Job__done_callback j w =
    let w1 := set_runner (jobs_discard j) w in
    match r with
    | Return _ => (set_job j (set_manager None) w1, Returned tt)
    | Raise CancelledError => (w1, Raised CancelledError)
    | Raise e =>
        (set_job j (set_manager None)
           (if _explicit_wait o then w1
            else log (EvReport (sink_of w)
                        (make_context "Job processing failed" j e o)) w1),
         Returned tt)
    end.
Proof.
  intros Hj Ht Hm Hin Hh.
  unfold Job__done_callback, manager_jobs_remove, self_manager,
    JobRunner_call_exception_handler, sink_of.
  unfold_monad. simpl. rewrite Hj, Hm. simpl.
  destruct (decide (j ∈ _jobs (runner w))) as [_|[]]; [|done].
  simpl. rewrite Hj, Ht. simpl.
  destruct r as [v|e]; simpl; [done|].
  destruct e; simpl; try done;
    destruct (_explicit_wait o); simpl; try done;
    rewrite Hj, Hm; simpl;
    destruct Hh as [->|Hc]; try done;
    destruct (_exception_handler (runner w)); simpl in *; done.
Qed.

(** The loop step on a pending job that is registered and attached. *)
Lemma loop_finish_pending w j o r :
  heap w !! j = Some o →
  _task o = Pending →
  _manager o = Some Owner →
  j ∈ _jobs (runner w) →
  handler_ok (_exception_handler (runner w)) →
  loop_finish j r w =
    let w1 := set_runner (jobs_discard j)
                (set_job j (set_task (Finished r)) w) in
    match r with
    | Return _ => set_job j (set_manager None) w1
    | Raise CancelledError => log (EvCallbackError j CancelledError) w1
    | Raise e =>
        set_job j (set_manager None)
          (if _explicit_wait o then w1
           else log (EvReport (sink_of w)
                       (make_context "Job processing failed" j e o)) w1)
    end.
Proof.
  intros Hj Ht Hm Hin Hh. unfold loop_finish. rewrite Hj, Ht.
  erewrite (done_callback_run _ j (set_task (Finished r) o) r); simpl;
    try done.
  - destruct r as [v|e]; [|destruct e]; reflexivity.
  - by rewrite list_lookup_alter_eq, Hj.
Qed.

Lemma loop_finish_not_pending w j r :
  (∀ o, heap w !! j = Some o → _task o ≠ Pending) →
  loop_finish j r w = w.
Proof.
  intros H. unfold loop_finish. destruct (heap w !! j) as [o|] eqn:Hj; [|done].
  specialize (H o eq_refl). by destruct (_task o).
Qed.

(** ** The invariant holds in every reachable world *)

Lemma job_ok_pending o :
  job_ok o → _task o = Pending → _manager o = Some Owner.
Proof. unfold job_ok. by intros -> ->. Qed.

Lemma inv_pending w j o :
  inv w → heap w !! j = Some o → _task o = Pending →
  _manager o = Some Owner ∧ j ∈ _jobs (runner w).
Proof.
  intros Hw Hj Ht. split.
  - eapply job_ok_pending; [eapply inv_jobs|]; eauto.
  - apply (inv_registry w Hw). eauto.
Qed.

Lemma inv_log ev w : event_ok ev → keeps_inv w (log ev w).
Proof.
  intros Hev [H1 H2 H3 H4]. split; simpl; auto.
  apply Forall_app. split; auto.
Qed.

Lemma inv_discard_finished w j o r :
  inv w → heap w !! j = Some o → _task o = Pending →
  let w1 := set_runner (jobs_discard j)
              (set_job j (set_task (Finished r)) w) in
  (∀ j', j' ∈ _jobs (runner w1) ↔
         ∃ o', heap w1 !! j' = Some o' ∧ _task o' = Pending) ∧
  (∀ j' o', j' ≠ j → heap w1 !! j' = Some o' → job_ok o') ∧
  heap w1 !! j = Some (set_task (Finished r) o).
Proof.
  intros Hw Hj Ht. simpl. split_and!.
  - intros j'. rewrite elem_of_difference, elem_of_singleton.
    rewrite (inv_registry w Hw j').
    destruct (decide (j' = j)) as [->|Hne].
    + rewrite list_lookup_alter_eq, Hj. simpl. split.
      * by intros [_ []].
      * intros (o' & ? & ?). by simplify_eq.
    + rewrite list_lookup_alter_ne by congruence.
      split; [by intros [? _]|by intros ?].
  - intros j' o' Hne. rewrite list_lookup_alter_ne by congruence.
    apply (inv_jobs w Hw).
  - by rewrite list_lookup_alter_eq, Hj.
Qed.

Lemma inv_loop_finish j r w : keeps_inv w (loop_finish j r w).
Proof.
  intros Hw. unfold loop_finish.
  destruct (heap w !! j) as [o|] eqn:Hj; [|done].
  destruct (_task o) eqn:Ht; [|done].
  destruct (inv_pending w j o Hw Hj Ht) as [Hm Hin].
  pose proof (inv_discard_finished w j o r Hw Hj Ht) as (Hreg & Hjobs & Hnew).
  pose proof (loop_finish_pending w j o r Hj Ht Hm Hin (inv_handler w Hw)) as E.
  unfold loop_finish in E. rewrite Hj, Ht in E. rewrite E. clear E.
  simpl in *.
  assert (∀ (w1 : World) (o1 : Job),
    heap w1 = alter (set_task (Finished r)) j (heap w) →
    runner w1 = jobs_discard j (runner w) →
    Forall event_ok (trace w1) →
    cancelled r = false →
    inv (set_job j (set_manager None) w1)) as Hdrop.
  { intros w1 o1 Hh Hr Htr Hc. split; simpl; rewrite ?Hh, ?Hr; simpl.
    - intros j'. rewrite Hreg.
      destruct (decide (j' = j)) as [->|Hne].
      + rewrite !list_lookup_alter_eq, Hj. simpl.
        split; intros (o' & ? & ?); simplify_eq.
      + by rewrite !list_lookup_alter_ne by congruence.
    - intros j' o'. destruct (decide (j' = j)) as [->|Hne].
      + rewrite !list_lookup_alter_eq, Hj. simpl. intros [= <-].
        unfold job_ok. simpl. by rewrite Hc.
      + rewrite list_lookup_alter_ne by congruence. by apply Hjobs.
    - apply (inv_handler w Hw).
    - done. }
  destruct r as [v|e].
  - apply (Hdrop _ o); try done. apply (inv_trace w Hw).
  - destruct (decide (e = CancelledError)) as [->|Hne].
    + split; simpl.
      * apply Hreg.
      * intros j' o'. destruct (decide (j' = j)) as [->|Hne].
        -- rewrite Hnew. intros [= <-]. unfold job_ok. by simpl.
        -- by apply Hjobs.
      * apply (inv_handler w Hw).
      * apply Forall_app. split; [apply (inv_trace w Hw)|].
        by constructor.
    + assert (cancelled (Raise e) = false) as Hc by by destruct e.
      replace (match e with CancelledError => _ | _ => _ end) with
        (set_job j (set_manager None)
           (if _explicit_wait o
            then set_runner (jobs_discard j)
                   (set_job j (set_task (Finished (Raise e))) w)
            else log (EvReport (sink_of w)
                        (make_context "Job processing failed" j e o))
                   (set_runner (jobs_discard j)
                      (set_job j (set_task (Finished (Raise e))) w))))
        by by destruct e.
      apply (Hdrop _ o); try done; destruct (_explicit_wait o); simpl;
        try done; try apply (inv_trace w Hw).
      apply Forall_app. split; [apply (inv_trace w Hw)|]. by constructor.
Qed.

Lemma keeps_inv_refl w : keeps_inv w w.
Proof. by intros ?. Qed.

Lemma keeps_inv_trans w1 w2 w3 :
  keeps_inv w1 w2 → keeps_inv w2 w3 → keeps_inv w1 w3.
Proof. unfold keeps_inv. auto. Qed.

Ltac keeps_inv_facts :=
  first [ exact keeps_inv_refl | exact keeps_inv_trans
        | exact inv_log | exact inv_loop_finish ].

Lemma inv_Job_close j env : preserves keeps_inv (Job_close j env).
Proof.
  apply preserves_Job_close;
    keeps_inv_facts.
Qed.

Lemma inv_Job__wait j timeout env :
  preserves keeps_inv (Job__wait j timeout env).
Proof.
  apply preserves_Job__wait;
    keeps_inv_facts.
Qed.

Lemma inv_set_explicit_wait j b w :
  keeps_inv w (set_job j (set_explicit_wait b) w).
Proof.
  intros Hw. split; simpl; try apply Hw.
  - intros j'. rewrite (inv_registry w Hw j').
    destruct (decide (j' = j)) as [->|Hne].
    + rewrite list_lookup_alter_eq.
      destruct (heap w !! j) as [o|]; simpl; [|done].
      split; intros (o' & ? & ?); simplify_eq; eauto.
    + by rewrite list_lookup_alter_ne by congruence.
  - intros j' o'. destruct (decide (j' = j)) as [->|Hne].
    + rewrite list_lookup_alter_eq.
      destruct (heap w !! j) as [o|] eqn:Hj; simpl; [|done].
      intros [= <-]. apply (inv_jobs w Hw j o Hj).
    + rewrite list_lookup_alter_ne by congruence. apply (inv_jobs w Hw).
Qed.

Lemma inv_Job_wait j timeout env : preserves keeps_inv (Job_wait j timeout env).
Proof.
  unfold Job_wait.
  apply preserves_bind; [exact keeps_inv_trans| |intros; apply inv_Job__wait].
  apply preserves_update. intros w. apply inv_set_explicit_wait.
Qed.

Lemma inv_init debug timeout : inv (JobRunner_init debug timeout).
Proof.
  split; simpl.
  - intros j. rewrite elem_of_empty, lookup_nil. split; [done|].
    by intros (o & ? & _).
  - intros j o. by rewrite lookup_nil.
  - by left.
  - constructor.
Qed.

Lemma inv_registered_lt w j : inv w → j ∈ _jobs (runner w) → j < length (heap w).
Proof.
  intros Hw Hj. apply (inv_registry w Hw) in Hj as (o & Hj & _).
  by apply lookup_lt_Some in Hj.
Qed.

Lemma inv_exec stack : preserves keeps_inv (JobRunner_exec stack).
Proof.
  intros w Hw. unfold JobRunner_exec, Job_init. unfold_monad. simpl.
  set (tb := if loop_debug w then _ else _). clearbody tb.
  split; simpl; try apply Hw.
  - intros j. rewrite elem_of_union, elem_of_singleton.
    destruct (decide (j = length (heap w))) as [->|Hne].
    + rewrite list_lookup_middle by done. split; [eauto|auto].
    + rewrite (inv_registry w Hw j). split.
      * intros [?|(o & Hj & Ht)]; [done|]. exists o. split; [|done].
        rewrite lookup_app_l; [done|]. by apply lookup_lt_Some in Hj.
      * intros (o & Hj & Ht). right. exists o. split; [|done].
        apply lookup_app_Some in Hj as [?|[? Hj]]; [done|].
        apply list_lookup_singleton_Some in Hj as [? _]. lia.
  - intros j o Hj. apply lookup_app_Some in Hj as [Hj|[? Hj]].
    + apply (inv_jobs w Hw j o Hj).
    + apply list_lookup_singleton_Some in Hj as [_ <-]. done.
Qed.

Lemma inv_set_timeout d : preserves keeps_inv (JobRunner_set_timeout d).
Proof. intros w Hw. split; simpl; apply Hw. Qed.

Lemma inv_set_exception_handler h :
  preserves keeps_inv (JobRunner_set_exception_handler h).
Proof.
  intros w Hw. unfold JobRunner_set_exception_handler.
  destruct (negb (bool_decide (h = PyNone)) && negb (callable h)) eqn:E;
    [done|].
  split; simpl; try apply Hw.
  apply andb_false_iff in E as [E|E]; apply negb_false_iff in E.
  - left. by apply bool_decide_eq_true in E.
  - by right.
Qed.

Lemma inv_perform a w : inv w → inv (perform a w).
Proof.
  intros Hw. destruct a; simpl.
  - by apply inv_exec.
  - by apply inv_Job_wait.
  - by apply inv_Job_close.
  - apply (preserves_JobRunner_wait keeps_inv);
      first [keeps_inv_facts | assumption].
  - apply (preserves_JobRunner_close keeps_inv);
      first [keeps_inv_facts | assumption].
  - by apply inv_set_timeout.
  - by apply inv_set_exception_handler.
  - by apply inv_loop_finish.
Qed.

Lemma reachable_inv w : reachable w → inv w.
Proof. induction 1; auto using inv_init, inv_perform. Qed.

Lemma not_elem_of_discard w j o r :
  j ∉ _jobs (runner (finished_world w j o r)).
Proof.
  unfold finished_world. simpl. rewrite elem_of_difference, elem_of_singleton.
  by intros [_ []].
Qed.

(** ** The bounded wait *)

Lemma timeout_enter_ok d w :
  timeout_ok d → timeout_enter d w = (w, Returned tt).
Proof.
  unfold timeout_enter. intros [->|Hd]; [done|].
  case_decide; [done|]. by rewrite Hd.
Qed.

Lemma bounded_wait_finished w j o r d env :
  heap w !! j = Some o → _task o = Finished r → timeout_ok d →
  bounded_wait j d env w = (log (EvTimeout j d) w, outcome r).
Proof.
  intros Hj Ht Hd. unfold bounded_wait.
  unfold mbind at 1 2, M_bind. unfold emit at 1, update at 1.
  rewrite timeout_enter_ok by done. unfold await_task.
  unfold_monad. simpl. by rewrite Hj, Ht.
Qed.

Lemma bounded_wait_pending w j o d env :
  heap w !! j = Some o → _task o = Pending → timeout_ok d →
  bounded_wait j d env w =
    let w1 := log (EvTimeout j d) w in
    match env with
    | InTime r => (loop_finish j r w1, outcome r)
    | Late r =>
        if decide (d = PyNone) then (loop_finish j r w1, outcome r)
        else (loop_finish j r (log (EvExpired j) w1),
              if cancelled r then Raised TimeoutError else outcome r)
    | Never => (w1, Blocked)
    end.
Proof.
  intros Hj Ht Hd. unfold bounded_wait.
  unfold mbind at 1 2, M_bind. unfold emit at 1, update at 1.
  rewrite timeout_enter_ok by done. unfold await_task.
  unfold_monad. simpl. rewrite Hj, Ht.
  destruct env as [r|r|]; try done.
  case_decide; [done|]. unfold replay. by destruct (cancelled r).
Qed.

Lemma bounded_wait_bad_timeout w j d env :
  ¬ timeout_ok d →
  bounded_wait j d env w = (log (EvTimeout j d) w, Raised TypeError).
Proof.
  intros Hd. unfold bounded_wait, timeout_enter. unfold_monad. simpl.
  case_decide as E; [destruct Hd; by left|].
  destruct (is_number d) eqn:E'; [destruct Hd; by right|done].
Qed.

(** ** The loop step, in full *)

Lemma world_eq w1 w2 :
  loop_debug w1 = loop_debug w2 → runner w1 = runner w2 →
  heap w1 = heap w2 → trace w1 = trace w2 → w1 = w2.
Proof. destruct w1, w2; simpl; congruence. Qed.

Lemma alter_alter_insert (f g : Job → Job) j o (l : list Job) :
  l !! j = Some o → alter g j (alter f j l) = <[j := g (f o)]> l.
Proof.
  intros Hj. apply list_eq. intros i.
  destruct (decide (i = j)) as [->|Hne].
  - rewrite !list_lookup_alter_eq, Hj. simpl.
    by rewrite list_lookup_insert_eq by by eapply lookup_lt_Some.
  - by rewrite !list_lookup_alter_ne, list_lookup_insert_ne by congruence.
Qed.

Lemma alter_insert (f : Job → Job) j o (l : list Job) :
  l !! j = Some o → alter f j l = <[j := f o]> l.
Proof.
  intros Hj. apply list_eq. intros i.
  destruct (decide (i = j)) as [->|Hne].
  - rewrite !list_lookup_alter_eq, Hj. simpl.
    by rewrite list_lookup_insert_eq by by eapply lookup_lt_Some.
  - by rewrite !list_lookup_alter_ne, list_lookup_insert_ne by congruence.
Qed.

Lemma loop_finish_view w j o r :
  inv w → heap w !! j = Some o → _task o = Pending →
  loop_finish j r w = finished_world w j o r.
Proof.
  intros Hw Hj Ht.
  destruct (inv_pending w j o Hw Hj Ht) as [Hm Hin].
  rewrite (loop_finish_pending w j o r Hj Ht Hm Hin (inv_handler w Hw)).
  unfold finished_world, finished_job, finish_events. simpl.
  destruct r as [v|e]; simpl.
  - apply world_eq; simpl; try done; [|by rewrite app_nil_r].
    by rewrite (alter_alter_insert _ _ _ o).
  - destruct e; simpl;
      try (destruct (_explicit_wait o) eqn:Hx;
           apply world_eq; simpl; rewrite ?app_nil_r; try done;
           rewrite (alter_alter_insert _ _ _ o) by done;
           unfold set_manager, set_task; simpl; by rewrite Hx).
    apply world_eq; simpl; try done.
    rewrite (alter_insert _ _ o) by done. unfold set_task. by rewrite Hm.
Qed.

(** ** Three more relations that every step respects *)

Lemma keeps_flags_refl w : keeps_flags w w.
Proof. done. Qed.

Lemma keeps_flags_trans w1 w2 w3 :
  keeps_flags w1 w2 → keeps_flags w2 w3 → keeps_flags w1 w3.
Proof. unfold keeps_flags. congruence. Qed.

Lemma fmap_alter_same {B} (f : Job → B) (g : Job → Job) j (l : list Job) :
  (∀ o, f (g o) = f o) → f <$> alter g j l = f <$> l.
Proof.
  intros Hfg. apply list_eq. intros i. rewrite !list_lookup_fmap.
  destruct (decide (i = j)) as [->|Hne].
  - rewrite list_lookup_alter_eq. destruct (l !! j); simpl; [|done].
    by rewrite Hfg.
  - by rewrite list_lookup_alter_ne by congruence.
Qed.

Lemma keeps_flags_loop_finish j r w : keeps_flags w (loop_finish j r w).
Proof.
  apply loop_finish_respects;
    [exact keeps_flags_refl | exact keeps_flags_trans | ..];
    intros; unfold keeps_flags; simpl; try done;
    by apply fmap_alter_same.
Qed.

Ltac keeps_flags_facts :=
  first [ exact keeps_flags_refl | exact keeps_flags_trans
        | exact keeps_flags_loop_finish | by intros ].

Lemma grows_trace_refl w : grows_trace w w.
Proof. unfold grows_trace. reflexivity. Qed.

Lemma grows_trace_trans w1 w2 w3 :
  grows_trace w1 w2 → grows_trace w2 w3 → grows_trace w1 w3.
Proof. unfold grows_trace. by etrans. Qed.

Lemma grows_trace_log ev w : grows_trace w (log ev w).
Proof. unfold grows_trace. simpl. by apply prefix_app_r. Qed.

Lemma grows_trace_loop_finish j r w : grows_trace w (loop_finish j r w).
Proof.
  apply loop_finish_respects;
    [exact grows_trace_refl | exact grows_trace_trans
    | exact grows_trace_log | ..];
    intros; unfold grows_trace; simpl; reflexivity.
Qed.

Ltac grows_trace_facts :=
  first [ exact grows_trace_refl | exact grows_trace_trans
        | exact grows_trace_loop_finish
        | intros; apply grows_trace_log ].

Lemma keeps_finished_refl w : keeps_finished w w.
Proof. intros j o Hj Hd. eauto. Qed.

Lemma keeps_finished_trans w1 w2 w3 :
  keeps_finished w1 w2 → keeps_finished w2 w3 → keeps_finished w1 w3.
Proof.
  intros H12 H23 j o Hj Hd.
  destruct (H12 j o Hj Hd) as (o2 & Hj2 & Ht2).
  destruct (H23 j o2 Hj2) as (o3 & Hj3 & Ht3); [by rewrite Ht2|].
  exists o3. split; [done|congruence].
Qed.

Lemma keeps_finished_heap w w' : heap w' = heap w → keeps_finished w w'.
Proof. intros E j o Hj Hd. rewrite E. eauto. Qed.

Lemma keeps_finished_alter j f w :
  (∀ o, _task (f o) = _task o) → keeps_finished w (set_job j f w).
Proof.
  intros Hf i o Hi Hd. simpl. destruct (decide (i = j)) as [->|Hne].
  - rewrite list_lookup_alter_eq, Hi. simpl. eauto.
  - rewrite list_lookup_alter_ne by congruence. eauto.
Qed.

Lemma keeps_finished_loop_finish j r w : keeps_finished w (loop_finish j r w).
Proof.
  unfold loop_finish. destruct (heap w !! j) as [o|] eqn:Hj;
    [|apply keeps_finished_refl].
  destruct (_task o) eqn:Ht; [|apply keeps_finished_refl].
  assert (keeps_finished w (set_job j (set_task (Finished r)) w)) as H1.
  { intros i o' Hi Hd. simpl. destruct (decide (i = j)) as [->|Hne].
    - simplify_eq. by rewrite Ht in Hd.
    - rewrite list_lookup_alter_ne by congruence. eauto. }
  pose proof (preserves_done_callback keeps_finished keeps_finished_refl
    keeps_finished_trans
    (λ ev w, keeps_finished_heap w (log ev w) eq_refl)
    (λ j m w, keeps_finished_alter j (set_manager m) w (λ _, eq_refl))
    (λ j w, keeps_finished_heap w (set_runner (jobs_discard j) w) eq_refl)
    j (set_job j (set_task (Finished r)) w)) as H2.
  destruct (Job__done_callback _ _) as [w' [[]|e|]]; simpl in H2;
    eauto using keeps_finished_trans, keeps_finished_heap.
Qed.

Ltac keeps_finished_facts :=
  first [ exact keeps_finished_refl | exact keeps_finished_trans
        | exact keeps_finished_loop_finish
        | intros; by apply keeps_finished_heap ].

Lemma keeps_finished_perform a w : keeps_finished w (perform a w).
Proof.
  destruct a; simpl.
  - intros j o Hj Hd. unfold JobRunner_exec, Job_init. unfold_monad. simpl.
    exists o. split; [|done]. apply lookup_app_l_Some. done.
  - unfold Job_wait.
    apply preserves_bind; [exact keeps_finished_trans| |intros _].
    + apply preserves_update. intros w'. by apply keeps_finished_alter.
    + apply preserves_Job__wait; keeps_finished_facts.
  - apply preserves_Job_close; keeps_finished_facts.
  - apply preserves_JobRunner_wait; keeps_finished_facts.
  - apply preserves_JobRunner_close; keeps_finished_facts.
  - by apply keeps_finished_heap.
  - unfold JobRunner_set_exception_handler.
    case_match; by apply keeps_finished_heap.
  - apply keeps_finished_loop_finish.
Qed.

(** ** [Job.close] *)

(** [close] once [self._manager] has been read. *)
Lemma Job_close_attached w j o env :
  heap w !! j = Some o → _manager o = Some Owner →
  Job_close j env w =
    match bounded_wait j (_timeout (runner w)) env (log (EvCancel j) w) with
    | (w', Returned _) => (w', Returned tt)
    | (w', Raised e) =>
        match Job_close_except j e with
        | Some k => k w'
        | None => (w', Raised e)
        end
    | (w', Blocked) => (w', Blocked)
    end.
Proof.
  intros Hj Hm. unfold Job_close, self_manager. unfold_monad. simpl.
  rewrite Hj, Hm. simpl.
  by destruct (bounded_wait _ _ _ _) as [w' [v|e|]].
Qed.

(** [close] on a job whose back reference is gone. *)
Lemma Job_close_detached w j o env :
  heap w !! j = Some o → _manager o = None →
  Job_close j env w = (log (EvCancel j) w, Raised AttributeError).
Proof.
  intros Hj Hm. unfold Job_close, self_manager. unfold_monad. simpl.
  by rewrite Hj, Hm.
Qed.

(** The report of a close that timed out, for a job still attached. *)
Lemma close_timeout_report w j o :
  heap w !! j = Some o → _manager o = Some Owner →
  handler_ok (_exception_handler (runner w)) →
  (o ← self_ j;
   self_manager j;;
   JobRunner_call_exception_handler
     (make_context "Job closing reached timeout" j TimeoutError o)) w =
  (log (EvReport (sink_of w)
          (make_context "Job closing reached timeout" j TimeoutError o)) w,
   Returned tt).
Proof.
  intros Hj Hm Hh. unfold self_manager, JobRunner_call_exception_handler,
    sink_of.
  unfold_monad. simpl. rewrite Hj. simpl. rewrite Hj, Hm. simpl.
  destruct Hh as [->|Hc]; [done|].
  by destruct (_exception_handler (runner w)).
Qed.

Lemma finished_world_lookup w j o r :
  heap w !! j = Some o →
  heap (finished_world w j o r) !! j = Some (finished_job o r).
Proof.
  intros Hj. simpl. apply list_lookup_insert_eq. by eapply lookup_lt_Some.
Qed.

(** [close] on a pending job whose task ends before the grace period is
    over (or with no grace period at all). *)
Lemma Job_close_pending_in_time w j o r :
  inv w → heap w !! j = Some o → _task o = Pending →
  timeout_ok (_timeout (runner w)) →
  Job_close j (InTime r) w =
    (finished_world
       (log (EvTimeout j (_timeout (runner w))) (log (EvCancel j) w)) j o r,
     match r with
     | Return _ | Raise CancelledError => Returned tt
     | Raise TimeoutError => Raised AttributeError
     | Raise e => Raised e
     end).
Proof.
  intros Hw Hj Ht Hd.
  destruct (inv_pending w j o Hw Hj Ht) as [Hm _].
  rewrite (Job_close_attached w j o) by done.
  rewrite (bounded_wait_pending _ j o) by done. simpl.
  rewrite (loop_finish_view _ j o) by (try done; by repeat apply inv_log).
  destruct r as [v|e]; simpl; [done|].
  destruct e; simpl; try done.
  unfold self_manager. unfold_monad.
  rewrite finished_world_lookup by exact Hj. cbn.
  by rewrite finished_world_lookup by exact Hj.
Qed.

Lemma Job_close_pending_never w j o :
  inv w → heap w !! j = Some o → _task o = Pending →
  timeout_ok (_timeout (runner w)) →
  Job_close j Never w =
    (log (EvTimeout j (_timeout (runner w))) (log (EvCancel j) w), Blocked).
Proof.
  intros Hw Hj Ht Hd.
  destruct (inv_pending w j o Hw Hj Ht) as [Hm _].
  rewrite (Job_close_attached w j o) by done.
  by rewrite (bounded_wait_pending _ j o) by done.
Qed.

(** [close] on a pending job whose task outlives the grace period. *)
Lemma Job_close_pending_late w j o r :
  inv w → heap w !! j = Some o → _task o = Pending →
  is_number (_timeout (runner w)) = true →
  Job_close j (Late r) w =
    let w' :=
      finished_world
        (log (EvExpired j)
           (log (EvTimeout j (_timeout (runner w))) (log (EvCancel j) w)))
        j o r in
    match r with
    | Return _ => (w', Returned tt)
    | Raise CancelledError =>
        (log (EvReport (sink_of w)
                (make_context "Job closing reached timeout" j TimeoutError o))
           w',
         Returned tt)
    | Raise TimeoutError => (w', Raised AttributeError)
    | Raise e => (w', Raised e)
    end.
Proof.
  intros Hw Hj Ht Hd.
  destruct (inv_pending w j o Hw Hj Ht) as [Hm _].
  assert (_timeout (runner w) ≠ PyNone) as Hn by (intros E; by rewrite E in Hd).
  rewrite (Job_close_attached w j o) by done.
  rewrite (bounded_wait_pending _ j o) by (try done; by right). simpl.
  destruct (decide (_timeout (runner w) = PyNone)) as [|_]; [done|].
  rewrite (loop_finish_view _ j o) by (try done; by repeat apply inv_log).
  destruct r as [v|e]; simpl; [done|].
  destruct e; simpl; try done.
  - rewrite (close_timeout_report _ j (finished_job o (Raise CancelledError)));
      try done.
    + by apply finished_world_lookup.
    + apply (inv_handler w Hw).
  - unfold self_manager. unfold_monad.
    rewrite finished_world_lookup by exact Hj. cbn.
    by rewrite finished_world_lookup by exact Hj.
Qed.

(** [close] on a job whose task was cancelled earlier. *)
Lemma Job_close_cancelled w j o env :
  inv w → heap w !! j = Some o → _task o = Finished (Raise CancelledError) →
  timeout_ok (_timeout (runner w)) →
  Job_close j env w =
    (log (EvTimeout j (_timeout (runner w))) (log (EvCancel j) w),
     Returned tt).
Proof.
  intros Hw Hj Ht Hd.
  pose proof (inv_jobs w Hw j o Hj) as Hm. unfold job_ok in Hm.
  rewrite Ht in Hm. simpl in Hm.
  rewrite (Job_close_attached w j o) by done.
  by rewrite (bounded_wait_finished _ j o (Raise CancelledError)) by done.
Qed.

(** [close] on a job whose task returned or failed earlier. *)
Lemma Job_close_ended w j o r env :
  inv w → heap w !! j = Some o → _task o = Finished r → cancelled r = false →
  Job_close j env w = (log (EvCancel j) w, Raised AttributeError).
Proof.
  intros Hw Hj Ht Hc.
  pose proof (inv_jobs w Hw j o Hj) as Hm. unfold job_ok in Hm.
  rewrite Ht, Hc in Hm. by apply (Job_close_detached w j o).
Qed.

(** ** [Job.wait] *)

Lemma inv_finished_world w j o r :
  inv w → heap w !! j = Some o → _task o = Pending →
  inv (finished_world w j o r).
Proof.
  intros Hw Hj Ht. rewrite <- (loop_finish_view w j o r) by done.
  by apply inv_loop_finish.
Qed.

(** [_wait] on a job whose task has ended already. *)
Lemma Job__wait_finished w j o r timeout env :
  inv w → heap w !! j = Some o → _task o = Finished r → timeout_ok timeout →
  Job__wait j timeout env w =
    match r with
    | Raise TimeoutError =>
        (log (EvCancel j) (log (EvTimeout j timeout) w), Raised AttributeError)
    | _ => (log (EvTimeout j timeout) w, outcome r)
    end.
Proof.
  intros Hw Hj Ht Hd. unfold Job__wait, try_except.
  rewrite (bounded_wait_finished w j o r) by done.
  destruct r as [v|e]; simpl; [done|]. destruct e; simpl; try done.
  unfold_monad.
  rewrite (Job_close_ended _ j o (Raise TimeoutError)); try done.
  by apply inv_log.
Qed.

(** [_wait] on a pending job whose task ends before the deadline (or with
    no deadline at all). *)
Lemma Job__wait_pending_in_time w j o r timeout :
  inv w → heap w !! j = Some o → _task o = Pending → timeout_ok timeout →
  Job__wait j timeout (InTime r) w =
    let w' := finished_world (log (EvTimeout j timeout) w) j o r in
    match r with
    | Raise TimeoutError => (log (EvCancel j) w', Raised AttributeError)
    | _ => (w', outcome r)
    end.
Proof.
  intros Hw Hj Ht Hd. unfold Job__wait, try_except.
  rewrite (bounded_wait_pending w j o) by done. cbn.
  rewrite (loop_finish_view _ j o) by (try done; by apply inv_log).
  destruct r as [v|e]; cbn; [done|]. destruct e; cbn; try done.
  unfold_monad.
  rewrite (Job_close_ended _ j (finished_job o (Raise TimeoutError))
             (Raise TimeoutError)); try done.
  - apply inv_finished_world; try done. by apply inv_log.
  - by apply finished_world_lookup.
Qed.

(** [_wait] on a pending job whose task outlives the deadline. *)
Lemma Job__wait_pending_late w j o r timeout :
  inv w → heap w !! j = Some o → _task o = Pending →
  is_number timeout = true → timeout_ok (_timeout (runner w)) →
  Job__wait j timeout (Late r) w =
    let w' :=
      finished_world (log (EvExpired j) (log (EvTimeout j timeout) w)) j o r in
    match r with
    | Raise CancelledError =>
        (log (EvTimeout j (_timeout (runner w))) (log (EvCancel j) w'),
         Raised TimeoutError)
    | Raise TimeoutError => (log (EvCancel j) w', Raised AttributeError)
    | _ => (w', outcome r)
    end.
Proof.
  intros Hw Hj Ht Hn Hd. unfold Job__wait, try_except.
  assert (timeout ≠ PyNone) as Hne by (intros E; by rewrite E in Hn).
  rewrite (bounded_wait_pending w j o) by (try done; by right). cbn.
  destruct (decide (timeout = PyNone)) as [|_]; [done|].
  rewrite (loop_finish_view _ j o) by (try done; by repeat apply inv_log).
  assert (inv (finished_world
                 (log (EvExpired j) (log (EvTimeout j timeout) w)) j o r))
    as Hw' by (apply inv_finished_world; try done; by repeat apply inv_log).
  destruct r as [v|e]; cbn; [done|]. destruct e; cbn; try done; unfold_monad.
  - rewrite (Job_close_cancelled _ j
               (finished_job o (Raise CancelledError))); try done.
    by apply finished_world_lookup.
  - rewrite (Job_close_ended _ j (finished_job o (Raise TimeoutError))
               (Raise TimeoutError)); try done.
    by apply finished_world_lookup.
Qed.

Lemma Job_wait_unfold w j timeout env :
  Job_wait j timeout env w =
    Job__wait j timeout env (set_job j (set_explicit_wait true) w).
Proof. done. Qed.

Lemma set_explicit_wait_lookup w j o b :
  heap w !! j = Some o →
  heap (set_job j (set_explicit_wait b) w) !! j = Some (set_explicit_wait b o).
Proof. intros Hj. simpl. by rewrite list_lookup_alter_eq, Hj. Qed.

(** ** What a wait shows first *)


Lemma Job_close_head w j o env :
  heap w !! j = Some o → _manager o = Some Owner →
  ∃ evs, trace (Job_close j env w).1
         = trace w ++ EvCancel j :: EvTimeout j (_timeout (runner w)) :: evs.
Proof.
  intros Hj Hm.
  pose (d := _timeout (runner w)).
  pose (K := try_except
               (timeout_enter d;; await_task j d env;; mret tt)
               (Job_close_except j)).
  assert (Job_close j env w
          = K (log (EvTimeout j d) (log (EvCancel j) w))) as ->.
  { unfold Job_close, self_manager, K, bounded_wait, d. unfold_monad. simpl.
    rewrite Hj, Hm. simpl.
    destruct (timeout_enter _ _) as [w' [[]|e|]]; [|done..].
    by destruct (await_task _ _ _ _) as [w'' [v|e|]]. }
  assert (preserves grows_trace K) as HK.
  { apply preserves_try; [exact grows_trace_trans| |].
    - unfold timeout_enter, await_task.
      preserves_tac using
        first [ exact grows_trace_refl | exact grows_trace_trans
              | apply preserves_replay
              | apply preserves_update; intros;
                first [apply grows_trace_log | apply grows_trace_loop_finish] ].
    - intros e k Hk. destruct e; simpl in Hk; simplify_eq.
      + apply preserves_ret, grows_trace_refl.
      + preserves_tac using
          first [ exact grows_trace_refl | exact grows_trace_trans
                | apply preserves_report; grows_trace_facts ]. }
  destruct (HK (log (EvTimeout j d) (log (EvCancel j) w))) as [evs Hevs].
  exists evs. rewrite Hevs. simpl. by rewrite <- !app_assoc.
Qed.

(** ** How a wait and a close leave the task *)

Lemma number_of_ok d : timeout_ok d → d ≠ PyNone → is_number d = true.
Proof. by intros [->|Hd] Hn. Qed.

Lemma Job_close_late_none w j o r :
  heap w !! j = Some o → _manager o = Some Owner →
  _timeout (runner w) = PyNone →
  Job_close j (Late r) w = Job_close j (InTime r) w.
Proof.
  intros Hj Hm Hd. rewrite !(Job_close_attached w j o) by done.
  rewrite Hd. unfold bounded_wait, await_task. unfold_monad. simpl.
  by destruct (heap w !! j) as [[[] ? ? ?]|].
Qed.


(** [close()] on a running job whose task ends, in time or late, leaves
    the task with that ending. *)
Lemma Job_close_ends w j o env r :
  inv w → heap w !! j = Some o → _task o = Pending →
  timeout_ok (_timeout (runner w)) → ending_of env = Some r →
  task_of j (Job_close j env w).1 = Some (Finished r).
Proof.
  intros Hw Hj Ht Hd Henv. unfold task_of.
  assert (heap (Job_close j (InTime r) w).1 !! j = Some (finished_job o r))
    as Hin.
  { rewrite (Job_close_pending_in_time w j o) by done. cbn.
    by apply finished_world_lookup. }
  destruct env as [r'|r'|]; simplify_eq/=; [by rewrite Hin|].
  destruct (decide (_timeout (runner w) = PyNone)) as [E|Hn].
  - destruct (inv_pending w j o Hw Hj Ht) as [Hm _].
    rewrite (Job_close_late_none w j o) by done. by rewrite Hin.
  - rewrite (Job_close_pending_late w j o)
      by (try done; by apply number_of_ok).
    destruct r as [v|e]; [|destruct e]; cbn;
      by rewrite finished_world_lookup by exact Hj.
Qed.


(** ** Runs of several actions *)

Lemma reachable_perform_all l w : reachable w → reachable (perform_all l w).
Proof.
  revert w. induction l as [|a l IH]; intros w Hr; [done|].
  simpl. by apply IH, reach_step.
Qed.

Lemma keeps_timeout_refl w : keeps_timeout w w.
Proof. done. Qed.

Lemma keeps_timeout_trans w1 w2 w3 :
  keeps_timeout w1 w2 → keeps_timeout w2 w3 → keeps_timeout w1 w3.
Proof. unfold keeps_timeout. congruence. Qed.

Lemma keeps_timeout_loop_finish j r w : keeps_timeout w (loop_finish j r w).
Proof.
  apply loop_finish_respects;
    [exact keeps_timeout_refl | exact keeps_timeout_trans | ..];
    by intros.
Qed.

Ltac keeps_timeout_facts :=
  first [ exact keeps_timeout_refl | exact keeps_timeout_trans
        | exact keeps_timeout_loop_finish | by intros ].

(** The grace period is changed by [set_timeout] and by nothing else. *)
Lemma keeps_timeout_perform a w :
  sets_timeout a = false → keeps_timeout w (perform a w).
Proof.
  destruct a; simpl; intros Ha; try done.
  - rewrite Job_wait_unfold.
    apply (keeps_timeout_trans _ (set_job j (set_explicit_wait true) w));
      [done|].
    apply preserves_Job__wait; keeps_timeout_facts.
  - apply preserves_Job_close; keeps_timeout_facts.
  - apply preserves_JobRunner_wait; keeps_timeout_facts.
  - apply preserves_JobRunner_close; keeps_timeout_facts.
  - unfold JobRunner_set_exception_handler. by case_match.
  - apply keeps_timeout_loop_finish.
Qed.

Lemma keeps_timeout_perform_all l w :
  Forall (λ a, sets_timeout a = false) l →
  keeps_timeout w (perform_all l w).
Proof.
  intros Hl. revert w. induction Hl as [|a l Ha _ IH]; intros w; [done|].
  simpl. eapply keeps_timeout_trans; [|apply IH].
  by apply keeps_timeout_perform.
Qed.

(** * The claims *)

Lemma reachable_world1 : reachable world1.
Proof. apply reach_step, reach_init. Qed.

Lemma world1_job0 :
  heap world1 !! 0 =
    Some (mkJob Pending (Some Owner) false (Some ["serve"; "handler"]%string)).
Proof. reflexivity. Qed.

(** C9. [JobRunner.set_exception_handler(h)] with [h] neither callable nor
    [None] raises [TypeError] at once and leaves the runner as it was;
    with a callable or [None] it succeeds and the handler is then [h];
    with no handler configured, [call_exception_handler] hands the
    context to the default handler of the loop. *)
Theorem set_exception_handler_validates w h :
  (h ≠ PyNone → callable h = false →
     JobRunner_set_exception_handler h w = (w, Raised TypeError)) ∧
  (h = PyNone ∨ callable h = true →
     ∃ w', JobRunner_set_exception_handler h w = (w', Returned tt) ∧
           JobRunner_get_exception_handler w' = (w', Returned h)) ∧
  (_exception_handler (runner w) = PyNone →
     ∀ ctx, JobRunner_call_exception_handler ctx w
            = (log (EvReport LoopDefault ctx) w, Returned tt)).
Proof.
  unfold JobRunner_set_exception_handler. split_and!.
  - intros Hn Hc. rewrite Hc. by rewrite bool_decide_eq_false_2.
  - intros [->|Hc].
    + eexists. split; reflexivity.
    + rewrite Hc, andb_false_r. eexists. split; reflexivity.
  - intros Hh ctx. unfold JobRunner_call_exception_handler. unfold_monad.
    by rewrite Hh.
Qed.

Lemma set_exception_handler_validates_witness :
  JobRunner_set_exception_handler (PyInt 3) world1 = (world1, Raised TypeError) ∧
  (∃ w', JobRunner_set_exception_handler (PyFunc 5) world1 = (w', Returned tt) ∧
         JobRunner_get_exception_handler w' = (w', Returned (PyFunc 5))) ∧
  (∀ ctx, JobRunner_call_exception_handler ctx world1
          = (log (EvReport LoopDefault ctx) world1, Returned tt)).
Proof.
  split_and!.
  - apply (set_exception_handler_validates world1 (PyInt 3)); done.
  - apply (set_exception_handler_validates world1 (PyFunc 5)). by right.
  - apply (set_exception_handler_validates world1 PyNone). reflexivity.
Defined.

(** C10. After [set_timeout(d)], whatever [d] is, [get_timeout()] returns
    [d], at once and after any further calls other than another
    [set_timeout]; and every [close()] started then on a job of the
    runner requests the cancellation, enters its bounded wait with [d]
    and waits there for the task: it fails with [TypeError] when [d] is
    neither a number nor [None], it does not come back while the task
    does not end, and it leaves the task ended as the task ended.  The
    same timer is armed by a [close()] on a job that has ended cancelled
    and so kept its runner. *)
Theorem set_timeout_get_timeout w d :
  ∃ w', JobRunner_set_timeout d w = (w', Returned tt) ∧
        JobRunner_get_timeout w' = (w', Returned d) ∧
        (reachable w →
         ∀ j env, j ∈ _jobs (runner w') →
           ∃ evs, trace (Job_close j env w').1
                  = trace w' ++ EvCancel j :: EvTimeout j d :: evs) ∧
        (reachable w →
         ∀ l, Forall (λ a, sets_timeout a = false) l →
           let w2 := perform_all l w' in
           JobRunner_get_timeout w2 = (w2, Returned d) ∧
           ∀ j env, j ∈ _jobs (runner w2) →
             (∃ evs, trace (Job_close j env w2).1
                     = trace w2 ++ EvCancel j :: EvTimeout j d :: evs) ∧
             (¬ timeout_ok d →
                Job_close j env w2
                = (log (EvTimeout j d) (log (EvCancel j) w2),
                   Raised TypeError)) ∧
             (timeout_ok d → env = Never →
                Job_close j env w2
                = (log (EvTimeout j d) (log (EvCancel j) w2), Blocked)) ∧
             (timeout_ok d → ∀ r, ending_of env = Some r →
                task_of j (Job_close j env w2).1 = Some (Finished r))) ∧
        (reachable w →
         ∀ l, Forall (λ a, sets_timeout a = false) l →
           let w2 := perform_all l w' in
           ∀ j o env, heap w2 !! j = Some o → _manager o = Some Owner →
             ∃ evs, trace (Job_close j env w2).1
                    = trace w2 ++ EvCancel j :: EvTimeout j d :: evs).
Proof.
  eexists. split; [reflexivity|]. split; [reflexivity|]. split_and!.
  - intros Hr j env Hin. apply reachable_inv in Hr.
    simpl in Hin. apply (inv_registry w Hr) in Hin as (o & Hj & Ht).
    destruct (inv_pending w j o Hr Hj Ht) as [Hm _].
    exact (Job_close_head
             (set_runner
                (λ r, mkJobRunner (_jobs r) d (_exception_handler r)) w)
             j o env Hj Hm).
  - intros Hr l Hl.
    set (w' := set_runner
                 (λ r, mkJobRunner (_jobs r) d (_exception_handler r)) w).
    assert (reachable w') as Hr'
      by exact (reach_step (DoSetTimeout d) w Hr).
    pose proof (reachable_inv _ (reachable_perform_all l w' Hr')) as Hw2.
    pose proof (keeps_timeout_perform_all l w' Hl) as Hd2.
    unfold keeps_timeout in Hd2. simpl in Hd2. simpl.
    split; [unfold JobRunner_get_timeout; unfold_monad; by rewrite Hd2|].
    intros j env Hin.
    apply (inv_registry _ Hw2) in Hin as (o & Hj & Ht).
    destruct (inv_pending _ j o Hw2 Hj Ht) as [Hm _].
    split_and!.
    + rewrite <- Hd2. by apply (Job_close_head _ j o).
    + intros Hbad. rewrite (Job_close_attached _ j o) by done.
      rewrite Hd2. by rewrite bounded_wait_bad_timeout.
    + intros Hok ->. rewrite <- Hd2.
      apply (Job_close_pending_never _ j o); try done. by rewrite Hd2.
    + intros Hok r Henv.
      apply (Job_close_ends _ j o); try done. by rewrite Hd2.
  - intros Hr l Hl w2 j o env Hj Hm.
    assert (_timeout (runner w2) = d) as Hd2
      by exact (keeps_timeout_perform_all l _ Hl).
    rewrite <- Hd2. by apply (Job_close_head _ j o).
Qed.

Lemma set_timeout_get_timeout_witness :
  let l := [DoExec ["handler"]%string; DoSetExceptionHandler (PyFunc 1)] in
  let w2 := perform_all l (JobRunner_set_timeout (PyInt 5) world1).1 in
  JobRunner_get_timeout w2 = (w2, Returned (PyInt 5)) ∧
  Job_close 1 Never w2
  = (log (EvTimeout 1 (PyInt 5)) (log (EvCancel 1) w2), Blocked) ∧
  task_of 1 (Job_close 1 (Late (Return PyNone)) w2).1
  = Some (Finished (Return PyNone)).
Proof.
  destruct (set_timeout_get_timeout world1 (PyInt 5))
    as (w' & H1 & _ & _ & H4 & _).
  injection H1 as <-.
  assert (timeout_ok (PyInt 5)) as Hok by (by right).
  assert (Forall (λ a, sets_timeout a = false)
            [DoExec ["handler"]%string; DoSetExceptionHandler (PyFunc 1)])
    as Hl by (by repeat constructor).
  destruct (H4 reachable_world1 _ Hl) as [Hget Hclose].
  split; [exact Hget|].
  assert (1 ∈ _jobs (runner (perform_all
            [DoExec ["handler"]%string; DoSetExceptionHandler (PyFunc 1)]
            (JobRunner_set_timeout (PyInt 5) world1).1))) as Hin.
  { apply (bool_decide_unpack (1 ∈ _jobs (runner _))). vm_compute. exact I. }
  split.
  - destruct (Hclose 1 Never Hin) as (_ & _ & Hnever & _).
    by apply Hnever.
  - destruct (Hclose 1 (Late (Return PyNone)) Hin) as (_ & _ & _ & Hend).
    by apply Hend.
Defined.



(** C2 (the code differs). When the task of a job ends cancelled, the
    done callback removes the job from the registry and then stops at
    [task.exception()], which raises [CancelledError]: nothing is
    reported to the runner, the loop logs the exception, and the back
    reference [_manager] still points to the runner. *)
Theorem done_callback_cancelled_keeps_manager w j o :
  reachable w → heap w !! j = Some o → _task o = Pending →
  let w' := loop_finish j (Raise CancelledError) w in
  (j ∉ _jobs (runner w')) ∧
  heap w' !! j =
    Some (mkJob (Finished (Raise CancelledError)) (Some Owner)
            (_explicit_wait o) (_source_traceback o)) ∧
  trace w' = trace w ++ [EvCallbackError j CancelledError].
Proof.
  intros Hr Hj Ht. apply reachable_inv in Hr. simpl.
  rewrite (loop_finish_view w j o) by done. split_and!.
  - apply not_elem_of_discard.
  - by apply finished_world_lookup.
  - reflexivity.
Qed.

Lemma done_callback_cancelled_keeps_manager_witness :
  let w' := loop_finish 0 (Raise CancelledError) world1 in
  (0 ∉ _jobs (runner w')) ∧
  heap w' !! 0 =
    Some (mkJob (Finished (Raise CancelledError)) (Some Owner) false
            (Some ["serve"; "handler"]%string)) ∧
  trace w' = trace world1 ++ [EvCallbackError 0 CancelledError].
Proof.
  apply (done_callback_cancelled_keeps_manager world1 0 _
           reachable_world1 world1_job0).
  reflexivity.
Defined.

(** X15. For every other ending the callback does all of what C2 says:
    the job is unregistered, a failure is reported exactly when nobody
    waited explicitly, and the back reference is cleared. *)
Lemma done_callback_ended w j o r :
  reachable w → heap w !! j = Some o → _task o = Pending →
  cancelled r = false →
  let w' := loop_finish j r w in
  (j ∉ _jobs (runner w')) ∧
  heap w' !! j =
    Some (mkJob (Finished r) None (_explicit_wait o) (_source_traceback o)) ∧
  trace w' = trace w ++
    match r with
    | Raise e =>
        if _explicit_wait o then []
        else [EvReport (sink_of w)
                (mkContext "Job processing failed" j e (_source_traceback o))]
    | Return _ => []
    end.
Proof.
  intros Hr Hj Ht Hc. apply reachable_inv in Hr. simpl.
  rewrite (loop_finish_view w j o) by done. split_and!.
  - apply not_elem_of_discard.
  - rewrite finished_world_lookup by done. unfold finished_job.
    by rewrite Hc.
  - unfold finished_world, finish_events. simpl.
    destruct r as [v|e]; [done|]. by rewrite Hc.
Qed.

Lemma done_callback_ended_witness :
  let w' := loop_finish 0 (Raise (UserError 3)) world1 in
  (0 ∉ _jobs (runner w')) ∧
  heap w' !! 0 =
    Some (mkJob (Finished (Raise (UserError 3))) None false
            (Some ["serve"; "handler"]%string)) ∧
  trace w' = trace world1 ++
    [EvReport LoopDefault
       (mkContext "Job processing failed" 0 (UserError 3)
          (Some ["serve"; "handler"]%string))].
Proof.
  exact (done_callback_ended world1 0 _ (Raise (UserError 3))
           reachable_world1 world1_job0 eq_refl eq_refl).
Defined.

(** C4 (amended). [close()] on a running job requests the cancellation and
    then waits for the task to end, with a timer of the grace period of
    the runner armed.  The wait is not bounded by the grace period: when
    the timer fires the task is cancelled once more, and [close()] comes
    back only once the task has ended, so never if the task never ends.
    A task that ends cancelled within the grace period makes [close()]
    return with no report; a task that ends cancelled after the grace
    period makes it report "Job closing reached timeout", with the
    traceback of the job, and return; a task that returns makes
    [close()] return, with no report even after the grace period; a task
    that fails with an exception of its own makes [close()] raise it. *)
Theorem close_running w j o env :
  reachable w → heap w !! j = Some o → _task o = Pending →
  timeout_ok (_timeout (runner w)) →
  let d := _timeout (runner w) in
  let w' := (Job_close j env w).1 in
  let res := (Job_close j env w).2 in
  (∃ evs, trace w' = trace w ++ EvCancel j :: EvTimeout j d :: evs) ∧
  (env = InTime (Raise CancelledError) →
     res = Returned tt ∧
     trace w' = trace w ++
       [EvCancel j; EvTimeout j d; EvCallbackError j CancelledError]) ∧
  (env = Late (Raise CancelledError) → d ≠ PyNone →
     res = Returned tt ∧
     trace w' = trace w ++
       [EvCancel j; EvTimeout j d; EvExpired j;
        EvCallbackError j CancelledError;
        EvReport (sink_of w)
          (mkContext "Job closing reached timeout" j TimeoutError
             (_source_traceback o))]) ∧
  (∀ v, env = InTime (Return v) ∨ env = Late (Return v) →
     res = Returned tt) ∧
  (∀ e, e ≠ CancelledError → e ≠ TimeoutError →
     env = InTime (Raise e) ∨ env = Late (Raise e) → res = Raised e) ∧
  (env = Never →
     res = Blocked ∧ task_of j w' = Some Pending ∧
     trace w' = trace w ++ [EvCancel j; EvTimeout j d]) ∧
  (res = Blocked ↔ env = Never) ∧
  (∀ r, ending_of env = Some r → task_of j w' = Some (Finished r)) ∧
  (∀ r, env = Late r → d ≠ PyNone →
     ∃ evs, trace w' = trace w ++
              EvCancel j :: EvTimeout j d :: EvExpired j :: evs) ∧
  (∀ v, env = InTime (Return v) →
     trace w' = trace w ++ [EvCancel j; EvTimeout j d]) ∧
  (∀ v, env = Late (Return v) → d ≠ PyNone →
     trace w' = trace w ++ [EvCancel j; EvTimeout j d; EvExpired j]).
Proof.
  intros Hr Hj Ht Hd. apply reachable_inv in Hr. simpl.
  destruct (inv_pending w j o Hr Hj Ht) as [Hm _].
  split_and!.
  - by apply (Job_close_head w j o).
  - intros ->. rewrite (Job_close_pending_in_time w j o) by done.
    split; [done|]. unfold finished_world. simpl.
    by rewrite <- !app_assoc.
  - intros -> Hn. rewrite (Job_close_pending_late w j o) by (try done; by apply number_of_ok). split; [done|].
    unfold finished_world. simpl. by rewrite <- !app_assoc.
  - intros v [->| ->].
    + by rewrite (Job_close_pending_in_time w j o).
    + destruct (decide (_timeout (runner w) = PyNone)) as [E|Hn].
      * rewrite (Job_close_late_none w j o) by done.
        by rewrite (Job_close_pending_in_time w j o).
      * by rewrite (Job_close_pending_late w j o) by (try done; by apply number_of_ok).
  - intros e He1 He2 [->| ->].
    + rewrite (Job_close_pending_in_time w j o) by done. by destruct e.
    + destruct (decide (_timeout (runner w) = PyNone)) as [E|Hn].
      * rewrite (Job_close_late_none w j o) by done.
        rewrite (Job_close_pending_in_time w j o) by done. by destruct e.
      * rewrite (Job_close_pending_late w j o) by (try done; by apply number_of_ok). by destruct e.
  - intros ->. rewrite (Job_close_pending_never w j o) by done.
    split_and!; [done| |simpl; by rewrite <- app_assoc].
    unfold task_of. simpl. rewrite Hj. simpl. by rewrite Ht.
  - split; [|intros ->; by rewrite (Job_close_pending_never w j o)].
    assert (∀ r, (Job_close j (InTime r) w).2 ≠ Blocked) as Hin.
    { intros r. rewrite (Job_close_pending_in_time w j o) by done.
      destruct r as [v|e]; [done|]. by destruct e. }
    destruct env as [r|r|]; [by intros ?%Hin| |done].
    destruct (decide (_timeout (runner w) = PyNone)) as [E|Hn].
    + rewrite (Job_close_late_none w j o) by done. by intros ?%Hin.
    + rewrite (Job_close_pending_late w j o)
        by (try done; by apply number_of_ok).
      destruct r as [v|e]; [done|]. by destruct e.
  - intros r Henv. by apply (Job_close_ends w j o).
  - intros r -> Hn.
    rewrite (Job_close_pending_late w j o)
      by (try done; by apply number_of_ok).
    destruct r as [v|e]; [|destruct e]; unfold finished_world; simpl;
      rewrite <- !app_assoc; simpl; eauto.
  - intros v ->. rewrite (Job_close_pending_in_time w j o) by done.
    unfold finished_world. simpl. by rewrite <- !app_assoc.
  - intros v -> Hn.
    rewrite (Job_close_pending_late w j o)
      by (try done; by apply number_of_ok).
    unfold finished_world. simpl. by rewrite <- !app_assoc.
Qed.

Lemma close_running_witness :
  let w' := (Job_close 0 (Late (Raise CancelledError)) world1).1 in
  let res := (Job_close 0 (Late (Raise CancelledError)) world1).2 in
  res = Returned tt ∧
  trace w' = trace world1 ++
    [EvCancel 0; EvTimeout 0 default_timeout; EvExpired 0;
     EvCallbackError 0 CancelledError;
     EvReport LoopDefault
       (mkContext "Job closing reached timeout" 0 TimeoutError
          (Some ["serve"; "handler"]%string))].
Proof.
  assert (timeout_ok (_timeout (runner world1))) as Hd by (by right).
  destruct (close_running world1 0 _ (Late (Raise CancelledError))
              reachable_world1 world1_job0 eq_refl Hd)
    as (_ & _ & H & _).
  apply H; [reflexivity|discriminate].
Defined.

(** C4 as stated fails in three ways, all on the running job of a runner
    with the default grace period of 0.1: a task that answers the
    cancellation with an exception of its own makes [close()] raise that
    exception; a task that never ends keeps [close()] waiting for ever,
    far beyond the grace period; and when the grace period elapses and the
    task then returns, [close()] returns and reports nothing. *)
Lemma close_raises_waits_on_or_stays_silent :
  reachable world1 ∧
  heap world1 !! 0 =
    Some (mkJob Pending (Some Owner) false (Some ["serve"; "handler"]%string)) ∧
  _timeout (runner world1) = PyFloat 1 (-1) ∧
  (Job_close 0 (InTime (Raise (UserError 1))) world1).2
  = Raised (UserError 1) ∧
  (Job_close 0 Never world1).2 = Blocked ∧
  (Job_close 0 (Late (Return PyNone)) world1).2 = Returned tt ∧
  trace (Job_close 0 (Late (Return PyNone)) world1).1
  = trace world1 ++ [EvCancel 0; EvTimeout 0 (PyFloat 1 (-1)); EvExpired 0].
Proof. split; [exact reachable_world1|]. by split_and!. Qed.

(** C3 (amended). [wait(T)] on a running job whose task outlives the
    deadline [T] and then ends by accepting the cancellation that the
    expired deadline delivers: [wait] performs [close()] (cancel, then a
    wait bounded by the grace period) and raises [TimeoutError]; the job
    is then done, its explicit-wait flag is set, and nothing has been
    reported to the runner. *)
Theorem wait_deadline_expired w j o T :
  reachable w → heap w !! j = Some o → _task o = Pending →
  is_number T = true → timeout_ok (_timeout (runner w)) →
  let w' := (Job_wait j T (Late (Raise CancelledError)) w).1 in
  (Job_wait j T (Late (Raise CancelledError)) w).2 = Raised TimeoutError ∧
  trace w' = trace w ++
    [EvTimeout j T; EvExpired j; EvCallbackError j CancelledError;
     EvCancel j; EvTimeout j (_timeout (runner w))] ∧
  Job_done j w' = (w', Returned true) ∧
  (_explicit_wait <$> heap w' !! j) = Some true.
Proof.
  intros Hr Hj Ht HT Hd. apply reachable_inv in Hr. simpl.
  rewrite Job_wait_unfold.
  rewrite (Job__wait_pending_late _ j (set_explicit_wait true o));
    try done.
  - simpl. split_and!; try done.
    + unfold finished_world. simpl. by rewrite <- !app_assoc.
    + unfold Job_done. unfold_monad. cbn.
      by rewrite finished_world_lookup by by apply set_explicit_wait_lookup.
    + simpl. rewrite list_lookup_insert_eq; [done|].
      rewrite length_alter. by eapply lookup_lt_Some.
  - by apply inv_set_explicit_wait.
  - by apply set_explicit_wait_lookup.
Qed.

Lemma wait_deadline_expired_witness :
  (Job_wait 0 (PyFloat 1 (-2)) (Late (Raise CancelledError)) world1).2
  = Raised TimeoutError ∧
  trace (Job_wait 0 (PyFloat 1 (-2)) (Late (Raise CancelledError)) world1).1
  = trace world1 ++
    [EvTimeout 0 (PyFloat 1 (-2)); EvExpired 0;
     EvCallbackError 0 CancelledError;
     EvCancel 0; EvTimeout 0 default_timeout] ∧
  Job_done 0
    (Job_wait 0 (PyFloat 1 (-2)) (Late (Raise CancelledError)) world1).1
  = ((Job_wait 0 (PyFloat 1 (-2)) (Late (Raise CancelledError)) world1).1,
     Returned true) ∧
  (_explicit_wait <$>
     heap (Job_wait 0 (PyFloat 1 (-2)) (Late (Raise CancelledError)) world1).1
     !! 0) = Some true.
Proof.
  assert (timeout_ok (_timeout (runner world1))) as Hd by (by right).
  exact (wait_deadline_expired world1 0 _ (PyFloat 1 (-2))
           reachable_world1 world1_job0 eq_refl eq_refl Hd).
Defined.

(** C3 as stated fails: a task that outlives the deadline but swallows
    the cancellation and returns makes [wait(T)] return its result; no
    [TimeoutError] is raised. *)
Lemma wait_deadline_cancel_swallowed :
  reachable world1 ∧
  heap world1 !! 0 =
    Some (mkJob Pending (Some Owner) false (Some ["serve"; "handler"]%string)) ∧
  (Job_wait 0 (PyFloat 1 (-2)) (Late (Return (PyInt 7))) world1).2
  = Returned (PyInt 7).
Proof. split; [exact reachable_world1|]. split; reflexivity. Qed.

(** C5 (the code differs). A second [close()] raises [AttributeError]
    when the task has ended by returning: the first [close()] returns,
    the done callback has cleared [_manager] meanwhile, and the second
    [close()] reads [self._manager._timeout]. *)
Theorem close_twice_raises w j o v env :
  reachable w → heap w !! j = Some o → _task o = Pending →
  timeout_ok (_timeout (runner w)) →
  (Job_close j (InTime (Return v)) w).2 = Returned tt ∧
  (Job_close j env (Job_close j (InTime (Return v)) w).1).2
  = Raised AttributeError.
Proof.
  intros Hr Hj Ht Hd. apply reachable_inv in Hr.
  rewrite (Job_close_pending_in_time w j o) by done. split; [done|]. cbn.
  rewrite (Job_close_detached _ j (finished_job o (Return v))); try done.
  by apply finished_world_lookup.
Qed.

Lemma close_twice_raises_witness :
  (Job_close 0 (InTime (Return PyNone)) world1).2 = Returned tt ∧
  (Job_close 0 Never (Job_close 0 (InTime (Return PyNone)) world1).1).2
  = Raised AttributeError.
Proof.
  assert (timeout_ok (_timeout (runner world1))) as Hd by (by right).
  exact (close_twice_raises world1 0 _ PyNone Never
           reachable_world1 world1_job0 eq_refl Hd).
Defined.

(** X17. [close()] on a job whose task has returned or failed, by itself
    or under an earlier [wait], raises [AttributeError] at once. *)
Lemma close_after_end_raises w j o r env :
  reachable w → heap w !! j = Some o → _task o = Finished r →
  cancelled r = false →
  Job_close j env w = (log (EvCancel j) w, Raised AttributeError).
Proof. intros Hr. apply Job_close_ended. by apply reachable_inv. Qed.

Lemma close_after_end_raises_witness :
  Job_close 0 Never (perform (DoFinish 0 (Return (PyInt 7))) world1)
  = (log (EvCancel 0) (perform (DoFinish 0 (Return (PyInt 7))) world1),
     Raised AttributeError).
Proof.
  apply (close_after_end_raises _ 0
           (mkJob (Finished (Return (PyInt 7))) None false
              (Some ["serve"; "handler"]%string)) (Return (PyInt 7)) Never);
    [apply reach_step, reachable_world1|reflexivity..].
Defined.

(** X18. When the task ends cancelled, [close()] can be repeated: the
    second call returns and reports nothing. *)
Lemma close_twice_cancelled w j o env1 env2 :
  reachable w → heap w !! j = Some o → _task o = Pending →
  timeout_ok (_timeout (runner w)) →
  env1 = InTime (Raise CancelledError) ∨
    (env1 = Late (Raise CancelledError) ∧ _timeout (runner w) ≠ PyNone) →
  let w1 := (Job_close j env1 w).1 in
  (Job_close j env1 w).2 = Returned tt ∧
  Job_close j env2 w1 =
    (log (EvTimeout j (_timeout (runner w))) (log (EvCancel j) w1),
     Returned tt).
Proof.
  intros Hr Hj Ht Hd Henv. simpl.
  pose proof (inv_Job_close j env1 w (reachable_inv w Hr)) as Hw1.
  apply reachable_inv in Hr.
  assert (heap (Job_close j env1 w).1 !! j
          = Some (finished_job o (Raise CancelledError)) ∧
          _timeout (runner (Job_close j env1 w).1) = _timeout (runner w) ∧
          (Job_close j env1 w).2 = Returned tt) as (Hj1 & Hd1 & Hres).
  { destruct Henv as [->|[-> Hn]].
    - rewrite (Job_close_pending_in_time w j o) by done. cbn.
      split; [|done]. by apply finished_world_lookup.
    - rewrite (Job_close_pending_late w j o)
        by (try done; by apply number_of_ok). cbn.
      split; [|done]. by apply finished_world_lookup. }
  split; [done|].
  rewrite (Job_close_cancelled _ j (finished_job o (Raise CancelledError)));
    try done; by rewrite Hd1.
Qed.

Lemma close_twice_cancelled_witness :
  let w1 := (Job_close 0 (InTime (Raise CancelledError)) world1).1 in
  (Job_close 0 (InTime (Raise CancelledError)) world1).2 = Returned tt ∧
  Job_close 0 Never w1 =
    (log (EvTimeout 0 (_timeout (runner world1))) (log (EvCancel 0) w1),
     Returned tt).
Proof.
  assert (timeout_ok (_timeout (runner world1))) as Hd by (by right).
  exact (close_twice_cancelled world1 0 _ (InTime (Raise CancelledError))
           Never reachable_world1 world1_job0 eq_refl Hd
           (or_introl eq_refl)).
Defined.

(** C7 (the code differs). [wait()] with no deadline on a job whose task
    failed with [TimeoutError] raises [AttributeError] instead: [_wait]
    takes the exception for an expired deadline and calls [close()],
    which finds [_manager] cleared by the done callback. *)
Theorem wait_masks_timeout_failure w j o env :
  reachable w → heap w !! j = Some o →
  (_task o = Finished (Raise TimeoutError) →
     (Job_wait j PyNone env w).2 = Raised AttributeError) ∧
  (_task o = Pending →
     (Job_wait j PyNone (InTime (Raise TimeoutError)) w).2
     = Raised AttributeError).
Proof.
  intros Hr Hj. apply reachable_inv in Hr.
  pose proof (inv_set_explicit_wait j true w Hr) as Hw0.
  pose proof (set_explicit_wait_lookup w j o true Hj) as Hj0.
  split; intros Ht; rewrite Job_wait_unfold.
  - by rewrite (Job__wait_finished _ j (set_explicit_wait true o)
                  (Raise TimeoutError)); try done; by left.
  - by rewrite (Job__wait_pending_in_time _ j (set_explicit_wait true o));
      try done; by left.
Qed.

Lemma wait_masks_timeout_failure_witness :
  (Job_wait 0 PyNone (InTime (Raise TimeoutError)) world1).2
  = Raised AttributeError.
Proof.
  apply (wait_masks_timeout_failure world1 0 _ Never
           reachable_world1 world1_job0).
  reflexivity.
Defined.

(** X16. For every other ending, [wait()] with no deadline gives the
    caller exactly the ending of the task: its value, its exception, or
    [CancelledError] when it was cancelled. *)
Lemma wait_no_deadline_matches w j o r :
  reachable w → heap w !! j = Some o → r ≠ Raise TimeoutError →
  (_task o = Finished r → ∀ env, (Job_wait j PyNone env w).2 = outcome r) ∧
  (_task o = Pending → (Job_wait j PyNone (InTime r) w).2 = outcome r).
Proof.
  intros Hr Hj Hne. apply reachable_inv in Hr.
  pose proof (inv_set_explicit_wait j true w Hr) as Hw0.
  pose proof (set_explicit_wait_lookup w j o true Hj) as Hj0.
  split; [intros Ht env|intros Ht]; rewrite Job_wait_unfold.
  - rewrite (Job__wait_finished _ j (set_explicit_wait true o) r);
      try done; [|by left].
    destruct r as [v|e]; [done|]. by destruct e.
  - rewrite (Job__wait_pending_in_time _ j (set_explicit_wait true o));
      try done; [|by left].
    destruct r as [v|e]; [done|]. by destruct e.
Qed.

Lemma wait_no_deadline_matches_witness :
  (Job_wait 0 PyNone (InTime (Raise (UserError 5))) world1).2
  = Raised (UserError 5).
Proof.
  assert (Raise (UserError 5) ≠ Raise TimeoutError) as Hne by discriminate.
  exact (proj2 (wait_no_deadline_matches world1 0 _ (Raise (UserError 5))
                  reachable_world1 world1_job0 Hne) eq_refl).
Defined.

(** ** The bulk operations *)



(** ** After a bulk close *)

Lemma keeps_shape_refl w : keeps_shape w w.
Proof. by split. Qed.

Lemma keeps_shape_trans w1 w2 w3 :
  keeps_shape w1 w2 → keeps_shape w2 w3 → keeps_shape w1 w3.
Proof. intros [? ?] [? ?]. split; congruence. Qed.

Lemma keeps_shape_loop_finish j r w : keeps_shape w (loop_finish j r w).
Proof.
  apply loop_finish_respects;
    [exact keeps_shape_refl | exact keeps_shape_trans | ..];
    intros; split; simpl; try done; apply length_alter.
Qed.

Ltac keeps_shape_facts :=
  first [ exact keeps_shape_refl | exact keeps_shape_trans
        | exact keeps_shape_loop_finish | by intros ].

Lemma Job_close_done w j o env :
  inv w → heap w !! j = Some o → timeout_ok (_timeout (runner w)) →
  (Job_close j env w).2 ≠ Blocked →
  ∃ o', heap (Job_close j env w).1 !! j = Some o' ∧
        Task_done (_task o') = true.
Proof.
  intros Hw Hj Hd Hnb. destruct (_task o) as [|r0] eqn:Ht.
  - destruct (inv_pending w j o Hw Hj Ht) as [Hm _].
    assert (∀ r, ∃ o', heap (Job_close j (InTime r) w).1 !! j = Some o' ∧
                       Task_done (_task o') = true) as Hin.
    { intros r. rewrite (Job_close_pending_in_time w j o) by done. cbn.
      rewrite finished_world_lookup by exact Hj. eauto. }
    destruct env as [r|r|].
    + apply Hin.
    + destruct (decide (_timeout (runner w) = PyNone)) as [E|Hn].
      * rewrite (Job_close_late_none w j o) by done. apply Hin.
      * rewrite (Job_close_pending_late w j o)
          by (try done; by apply number_of_ok).
        exists (finished_job o r). split; [|done].
        destruct r as [v|e]; [|destruct e]; cbn;
          by rewrite finished_world_lookup by exact Hj.
    + by rewrite (Job_close_pending_never w j o) in Hnb.
  - destruct (preserves_Job_close keeps_finished keeps_finished_refl
                keeps_finished_trans
                (λ ev w _, keeps_finished_heap w (log ev w) eq_refl)
                keeps_finished_loop_finish j env w j o Hj)
      as (o' & Hj' & Ht'); [by rewrite Ht|].
    exists o'. split; [done|]. by rewrite Ht', Ht.
Qed.

Lemma run_all_close_done env l w :
  inv w → timeout_ok (_timeout (runner w)) →
  (∀ j, j ∈ l → is_Some (heap w !! j)) →
  (run_all ((λ j, Job_close j (env j)) <$> l) w).2 = Returned tt →
  ∀ j, j ∈ l →
    ∃ o', heap (run_all ((λ j, Job_close j (env j)) <$> l) w).1 !! j
          = Some o' ∧ Task_done (_task o') = true.
Proof.
  revert w. induction l as [|j l IH]; intros w Hw Hd Hl Hres j' Hj'.
  - by apply elem_of_nil in Hj'.
  - rewrite fmap_cons in *. simpl in *.
    pose proof (inv_Job_close j (env j) w Hw) as Hw1.
    pose proof (preserves_Job_close keeps_shape keeps_shape_refl
                  keeps_shape_trans (λ ev w _, keeps_shape_refl w)
                  keeps_shape_loop_finish j (env j) w) as [Hlen Hto].
    destruct (Hl j) as [o Hj]; [by left|].
    pose proof (Job_close_done w j o (env j) Hw Hj Hd) as Hdone.
    destruct (Job_close j (env j) w) as [w1 r1]. simpl in *.
    assert (r1 ≠ Blocked) as Hnb by (intros ->; done).
    assert ((run_all ((λ j, Job_close j (env j)) <$> l) w1).2 = Returned tt)
      as Hres1 by by destruct r1.
    assert (∀ i, i ∈ l → is_Some (heap w1 !! i)) as Hl1.
    { intros i Hi. apply lookup_lt_is_Some. rewrite Hlen.
      apply lookup_lt_is_Some, Hl. by right. }
    rewrite <- Hto in Hd.
    assert (∃ o', heap (run_all ((λ j, Job_close j (env j)) <$> l) w1).1 !! j'
                  = Some o' ∧ Task_done (_task o') = true) as Hgoal.
    { apply elem_of_cons in Hj' as [->|Hj'].
      - destruct (Hdone Hnb) as (o1 & Hj1 & Hd1).
        destruct (preserves_run_all keeps_finished keeps_finished_refl
                    keeps_finished_trans
                    ((λ j, Job_close j (env j)) <$> l)) with (w := w1)
          (j := j) (o := o1) as (o2 & Hj2 & Ht2); try done.
        + apply Forall_fmap, Forall_forall. intros i _.
          apply preserves_Job_close; keeps_finished_facts.
        + exists o2. split; [done|]. by rewrite Ht2.
      - by apply IH. }
    by destruct r1.
Qed.

Lemma asyncio_wait_run_all {A} (cs : list (M A)) :
  cs ≠ [] → asyncio_wait cs = run_all cs.
Proof. by destruct cs. Qed.

(** Once [JobRunner.close()] has returned, every job that was registered
    when it started is done.  (How long that takes is not expressed
    here.) *)
Lemma runner_close_all_done w env :
  reachable w → timeout_ok (_timeout (runner w)) →
  (JobRunner_close env w).2 = Returned tt →
  ∀ j, j ∈ _jobs (runner w) →
    ∃ o', heap (JobRunner_close env w).1 !! j = Some o' ∧
          Task_done (_task o') = true.
Proof.
  intros Hr Hd Hres j Hj. apply reachable_inv in Hr.
  unfold JobRunner_close in *. unfold_monad. simpl in *.
  destruct (decide (_jobs (runner w) = ∅)) as [E|Hne].
  - rewrite E in Hj. by apply elem_of_empty in Hj.
  - assert (elements (_jobs (runner w)) ≠ []) as Hl
      by (by intros ?%elements_empty_inv%leibniz_equiv).
    rewrite asyncio_wait_run_all in * by by destruct (elements _).
    apply run_all_close_done; try done.
    + intros i' Hi'. apply elem_of_elements in Hi'.
      apply (inv_registry w Hr) in Hi' as (o & Ho & _). eauto.
    + by apply elem_of_elements.
Qed.

(** * Further properties of the module *)

(** ** The registry as a container *)

(** The done callback of a job whose task has just ended, before the loop
    has logged what escapes it. *)
Lemma done_callback_after w j o r :
  inv w → heap w !! j = Some o → _task o = Pending →
  let w2 := (Job__done_callback j (set_job j (set_task (Finished r)) w)).1 in
  runner w2 = jobs_discard j (runner w) ∧
  heap w2 = <[j := finished_job o r]> (heap w).
Proof.
  intros Hw Hj Ht. simpl.
  pose proof (loop_finish_view w j o r Hw Hj Ht) as Hv.
  unfold loop_finish in Hv. rewrite Hj, Ht in Hv.
  pose proof (f_equal runner Hv) as Hvr. pose proof (f_equal heap Hv) as Hvh.
  unfold finished_world in Hvr, Hvh.
  by destruct (Job__done_callback j (set_job j (set_task (Finished r)) w))
    as [w' [[]|e|]].
Qed.

(** X1. A job is in the runner from [exec] until its done callback has
    run.  In a state in which the callback of every ended task has run,
    [job in runner] is the negation of [job.done()], and false for what
    is no job of the runner.  When the task of a running job ends, the
    job is done at once and still in the runner; once the loop has run
    its done callback it is done and not in the runner. *)
Theorem contains_until_done_callback w j :
  reachable w →
  JobRunner_contains j w =
    (w, Returned match heap w !! j with
                 | Some o => negb (Task_done (_task o))
                 | None => false
                 end) ∧
  (∀ o, heap w !! j = Some o →
     Job_done j w = (w, Returned (Task_done (_task o)))) ∧
  (∀ o r, heap w !! j = Some o → _task o = Pending →
     let w1 := set_job j (set_task (Finished r)) w in
     let w2 := (Job__done_callback j w1).1 in
     Job_done j w1 = (w1, Returned true) ∧
     JobRunner_contains j w1 = (w1, Returned true) ∧
     Job_done j w2 = (w2, Returned true) ∧
     JobRunner_contains j w2 = (w2, Returned false)).
Proof.
  intros Hr. apply reachable_inv in Hr. split_and!.
  - unfold JobRunner_contains. unfold_monad. f_equal. f_equal.
    destruct (heap w !! j) as [o|] eqn:Hj.
    + destruct (_task o) eqn:Ht; simpl.
      * apply bool_decide_eq_true_2, (inv_registry w Hr). eauto.
      * apply bool_decide_eq_false_2.
        intros (o' & Hj' & Ht')%(inv_registry w Hr). congruence.
    + apply bool_decide_eq_false_2.
      intros (o' & Hj' & _)%(inv_registry w Hr). by simplify_eq.
  - intros o Hj. unfold Job_done. unfold_monad. by rewrite Hj.
  - intros o r Hj Ht. simpl.
    destruct (inv_pending w j o Hr Hj Ht) as [Hm Hin].
    destruct (done_callback_after w j o r Hr Hj Ht) as [Hr2 Hh2].
    unfold Job_done, JobRunner_contains. unfold_monad.
    split_and!.
    + simpl. by rewrite list_lookup_alter_eq, Hj.
    + simpl. by rewrite bool_decide_eq_true_2.
    + rewrite Hh2, list_lookup_insert_eq; [done|]. by eapply lookup_lt_Some.
    + rewrite Hr2, bool_decide_eq_false_2; [done|].
      apply (not_elem_of_discard w j o r).
Qed.

Lemma contains_until_done_callback_witness :
  let w1 := set_job 0 (set_task (Finished (Return PyNone))) world1 in
  let w2 := (Job__done_callback 0 w1).1 in
  JobRunner_contains 0 world1 = (world1, Returned true) ∧
  Job_done 0 world1 = (world1, Returned false) ∧
  Job_done 0 w1 = (w1, Returned true) ∧
  JobRunner_contains 0 w1 = (w1, Returned true) ∧
  Job_done 0 w2 = (w2, Returned true) ∧
  JobRunner_contains 0 w2 = (w2, Returned false).
Proof.
  destruct (contains_until_done_callback world1 0 reachable_world1)
    as (H1 & H2 & H3).
  split; [exact H1|]. split; [exact (H2 _ world1_job0)|].
  exact (H3 _ (Return PyNone) world1_job0 eq_refl).
Defined.

(** X2. [exec] returns a job that was not in the runner, is in it
    afterwards and is not done; the length of the runner grows by one;
    and membership of every other job is as before. *)
Theorem exec_adds_one w stack :
  reachable w →
  let w' := (JobRunner_exec stack w).1 in
  let j := length (heap w) in
  (JobRunner_exec stack w).2 = Returned j ∧
  JobRunner_contains j w = (w, Returned false) ∧
  JobRunner_contains j w' = (w', Returned true) ∧
  Job_done j w' = (w', Returned false) ∧
  (JobRunner_len w').2 = Returned (S (size (_jobs (runner w)))) ∧
  (JobRunner_len w).2 = Returned (size (_jobs (runner w))) ∧
  ∀ i, i ≠ j → (JobRunner_contains i w').2 = (JobRunner_contains i w).2.
Proof.
  intros Hr. apply reachable_inv in Hr. simpl.
  assert (length (heap w) ∉ _jobs (runner w)) as Hfresh.
  { intros Hin. apply (inv_registered_lt w _ Hr) in Hin. lia. }
  unfold JobRunner_exec, Job_init, JobRunner_contains, JobRunner_len, Job_done.
  unfold_monad. simpl. split_and!; try done.
  - by rewrite bool_decide_eq_false_2.
  - rewrite bool_decide_eq_true_2; [done|].
    apply elem_of_union_l. by apply elem_of_singleton.
  - by rewrite list_lookup_middle.
  - rewrite size_union, size_singleton; [done|].
    intros x Hx%elem_of_singleton. by subst.
  - intros i Hi. f_equal. apply bool_decide_ext.
    rewrite elem_of_union, elem_of_singleton. split; [|by right].
    by intros [?|?].
Qed.

Lemma exec_adds_one_witness :
  (JobRunner_exec [] world1).2 = Returned 1 ∧
  (JobRunner_len (JobRunner_exec [] world1).1).2 = Returned 2.
Proof.
  destruct (exec_adds_one world1 [] reachable_world1)
    as (H1 & _ & _ & _ & H5 & _).
  split; [exact H1|exact H5].
Defined.

(** X3. [iter(runner)] yields the jobs that are in the runner, each once,
    and [len(runner)] is their number.  Every job that is not done is
    among them, and only jobs that [exec] has made are; in a state in
    which the callback of every ended task has run they are exactly the
    jobs that are not done.  When the task of a running job ends, the
    job is still yielded, and counted, until its done callback has run. *)
Theorem iter_lists_running_jobs w :
  reachable w →
  ∃ l, JobRunner_iter w = (w, Returned l) ∧
       JobRunner_len w = (w, Returned (length l)) ∧
       NoDup l ∧
       (∀ j, j ∈ l ↔ ∃ o, heap w !! j = Some o ∧ Task_done (_task o) = false) ∧
       (∀ j, j ∈ l ↔ JobRunner_contains j w = (w, Returned true)) ∧
       (∀ j r, j ∈ l →
          let w1 := set_job j (set_task (Finished r)) w in
          let w2 := (Job__done_callback j w1).1 in
          Job_done j w1 = (w1, Returned true) ∧
          JobRunner_iter w1 = (w1, Returned l) ∧
          JobRunner_len w1 = (w1, Returned (length l)) ∧
          ∃ l2, JobRunner_iter w2 = (w2, Returned l2) ∧
                JobRunner_len w2 = (w2, Returned (length l2)) ∧
                (j ∉ l2) ∧ l ≡ₚ j :: l2).
Proof.
  intros Hr. apply reachable_inv in Hr.
  exists (elements (_jobs (runner w))). split_and!; try done.
  - apply NoDup_elements.
  - intros j. rewrite elem_of_elements, (inv_registry w Hr j).
    split; intros (o & Hj & Ht); exists o; split; try done.
    + by rewrite Ht.
    + by destruct (_task o).
  - intros j. rewrite elem_of_elements.
    unfold JobRunner_contains. unfold_monad. split.
    + intros Hj. by rewrite bool_decide_eq_true_2.
    + intros [=Hj]. by apply bool_decide_eq_true_1 in Hj.
  - intros j r Hj%elem_of_elements. simpl.
    pose proof Hj as (o & Ho & Ht)%(inv_registry w Hr).
    destruct (inv_pending w j o Hr Ho Ht) as [Hm _].
    assert (heap (set_job j (set_task (Finished r)) w) !! j
            = Some (set_task (Finished r) o)) as Hj1
      by (simpl; by rewrite list_lookup_alter_eq, Ho).
    split_and!; try done.
    { unfold Job_done. unfold_monad. by rewrite Hj1. }
    exists (elements (_jobs (runner w) ∖ {[j]})).
    assert (_jobs (runner (Job__done_callback j
                             (set_job j (set_task (Finished r)) w)).1)
            = _jobs (runner w) ∖ {[j]}) as Hjobs.
    { destruct (done_callback_after w j o r Hr Ho Ht) as [Hr2 _].
      by rewrite Hr2. }
    unfold JobRunner_iter, JobRunner_len. unfold_monad.
    rewrite Hjobs. split_and!; try done.
    + rewrite elem_of_elements. apply (not_elem_of_discard w j o r).
    + rewrite (union_difference_singleton_L j (_jobs (runner w)) Hj) at 1.
      apply elements_union_singleton.
      rewrite elem_of_difference, elem_of_singleton. by intros [_ []].
Qed.

Lemma iter_lists_running_jobs_witness :
  ∃ l, JobRunner_iter world1 = (world1, Returned l) ∧
       JobRunner_len world1 = (world1, Returned (length l)) ∧
       NoDup l ∧
       ∀ j, j ∈ l ↔
            ∃ o, heap world1 !! j = Some o ∧ Task_done (_task o) = false.
Proof.
  destruct (iter_lists_running_jobs world1 reachable_world1)
    as (l & H1 & H2 & H3 & H4 & _).
  exists l. by split_and!.
Defined.

(** ** What no operation undoes *)

(** X4. Once a job is done it stays done, with the same ending, whatever
    the runner, the jobs or the loop do next. *)
Theorem done_is_final a w j o :
  heap w !! j = Some o → Task_done (_task o) = true →
  task_of j (perform a w) = Some (_task o) ∧
  Job_done j (perform a w) = (perform a w, Returned true).
Proof.
  intros Hj Hd.
  destruct (keeps_finished_perform a w j o Hj Hd) as (o' & Hj' & Ht').
  unfold task_of, Job_done. unfold_monad. rewrite Hj'. simpl.
  by rewrite Ht', Hd.
Qed.

Lemma done_is_final_witness :
  task_of 0 (perform (DoJobClose 0 Never)
               (loop_finish 0 (Return (PyInt 1)) world1))
  = Some (Finished (Return (PyInt 1))) ∧
  Job_done 0 (perform (DoJobClose 0 Never)
                (loop_finish 0 (Return (PyInt 1)) world1))
  = (perform (DoJobClose 0 Never) (loop_finish 0 (Return (PyInt 1)) world1),
     Returned true).
Proof.
  apply (done_is_final (DoJobClose 0 Never)
           (loop_finish 0 (Return (PyInt 1)) world1) 0
           (mkJob (Finished (Return (PyInt 1))) None false
              (Some ["serve"; "handler"]%string)));
    reflexivity.
Defined.

Lemma keeps_flags_flag_of j w w' :
  keeps_flags w w' → flag_of j w' = flag_of j w.
Proof.
  unfold keeps_flags, flag_of. intros E.
  by rewrite <- !list_lookup_fmap, E.
Qed.

(** X5. The explicit-wait flag of a job is set by [Job.wait] on that job
    and by nothing else, and nothing ever clears it: after any action the
    flag is what it was, unless the action is a [wait] on the job, which
    leaves it set however the wait ends. *)
Theorem explicit_wait_set_only_by_wait a w j o :
  heap w !! j = Some o →
  flag_of j (perform a w) =
    Some match a with
         | DoJobWait i _ _ => if decide (i = j) then true else _explicit_wait o
         | _ => _explicit_wait o
         end.
Proof.
  intros Hj.
  assert (flag_of j w = Some (_explicit_wait o)) as Hf
    by (unfold flag_of; by rewrite Hj).
  destruct a as [stack|i t env|i env|t env|env|d|h|i r]; simpl.
  - unfold JobRunner_exec, Job_init, flag_of. unfold_monad. simpl.
    by rewrite (lookup_app_l_Some _ _ _ _ Hj).
  - rewrite Job_wait_unfold.
    rewrite (keeps_flags_flag_of j (set_job i (set_explicit_wait true) w))
      by (apply preserves_Job__wait; keeps_flags_facts).
    unfold flag_of. simpl. destruct (decide (i = j)) as [->|Hne].
    + by rewrite list_lookup_alter_eq, Hj.
    + by rewrite list_lookup_alter_ne, Hj.
  - rewrite (keeps_flags_flag_of j w); [done|].
    apply preserves_Job_close; keeps_flags_facts.
  - rewrite (keeps_flags_flag_of j w); [done|].
    apply preserves_JobRunner_wait; keeps_flags_facts.
  - rewrite (keeps_flags_flag_of j w); [done|].
    apply preserves_JobRunner_close; keeps_flags_facts.
  - done.
  - unfold JobRunner_set_exception_handler. by case_match.
  - rewrite (keeps_flags_flag_of j w); [done|].
    apply keeps_flags_loop_finish.
Qed.

Lemma explicit_wait_set_only_by_wait_witness :
  flag_of 0 (perform (DoJobWait 0 (PyStr "soon") Never) world1) = Some true ∧
  flag_of 0 (perform (DoWait PyNone (λ _, InTime (Raise (UserError 1)))) world1)
  = Some false.
Proof.
  split.
  - exact (explicit_wait_set_only_by_wait
             (DoJobWait 0 (PyStr "soon") Never) world1 0 _ world1_job0).
  - exact (explicit_wait_set_only_by_wait
             (DoWait PyNone (λ _, InTime (Raise (UserError 1)))) world1 0 _
             world1_job0).
Defined.

(** ** An explicit wait that is answered in time *)

(** X6. [wait(T)] on a running job whose task ends before the deadline by
    returning or by failing (not with a timeout error): the caller gets
    the result or the failure; the job is done and out of the registry;
    no cancellation was requested, and the failure is not reported to
    any handler, the caller having taken it. *)
Theorem wait_answered_in_time w j o T r :
  reachable w → heap w !! j = Some o → _task o = Pending →
  timeout_ok T → cancelled r = false → r ≠ Raise TimeoutError →
  let w' := (Job_wait j T (InTime r) w).1 in
  (Job_wait j T (InTime r) w).2 = outcome r ∧
  trace w' = trace w ++ [EvTimeout j T] ∧
  heap w' !! j =
    Some (mkJob (Finished r) None true (_source_traceback o)) ∧
  (j ∉ _jobs (runner w')).
Proof.
  intros Hr Hj Ht HT Hc Hne. apply reachable_inv in Hr. simpl.
  rewrite Job_wait_unfold.
  rewrite (Job__wait_pending_in_time _ j (set_explicit_wait true o));
    [|by apply inv_set_explicit_wait|by apply set_explicit_wait_lookup
     |done|done].
  assert (∀ w0, (let w' := finished_world w0 j (set_explicit_wait true o) r in
                 match r with
                 | Raise TimeoutError =>
                     (log (EvCancel j) w', Raised AttributeError)
                 | _ => (w', outcome r)
                 end)
                = (finished_world w0 j (set_explicit_wait true o) r,
                   outcome r)) as ->.
  { intros w0. destruct r as [v|e]; [done|]. by destruct e. }
  cbn. split_and!.
  - done.
  - unfold finished_world, finish_events. simpl.
    destruct r as [v|e]; simpl; [by rewrite app_nil_r|].
    destruct e; simpl in *; try done; by rewrite app_nil_r.
  - rewrite finished_world_lookup
      by by apply set_explicit_wait_lookup.
    unfold finished_job. by rewrite Hc.
  - apply not_elem_of_discard.
Qed.

Lemma wait_answered_in_time_witness :
  (Job_wait 0 (PyInt 5) (InTime (Raise (UserError 2))) world1).2
  = Raised (UserError 2) ∧
  trace (Job_wait 0 (PyInt 5) (InTime (Raise (UserError 2))) world1).1
  = trace world1 ++ [EvTimeout 0 (PyInt 5)].
Proof.
  assert (timeout_ok (PyInt 5)) as HT by (by right).
  destruct (wait_answered_in_time world1 0 _ (PyInt 5) (Raise (UserError 2))
              reachable_world1 world1_job0 eq_refl HT eq_refl)
    as (H1 & H2 & _); [discriminate|].
  split; [exact H1|exact H2].
Defined.

(** ** The bulk operations never raise *)

Lemma run_all_not_raised {A} (cs : list (M A)) w e :
  (run_all cs w).2 ≠ Raised e.
Proof.
  revert w. induction cs as [|c cs IH]; intros w; simpl; [done|].
  destruct (c w) as [w' [a|e'|]]; simpl; [apply IH..|done].
Qed.

(** X7. [JobRunner.wait] and [JobRunner.close] never raise, whatever the
    single waits and closes do: on an empty registry they return before
    [asyncio.wait] can reject an empty list, and otherwise what the
    coroutines raise stays with [asyncio.wait]. *)
Theorem bulk_never_raises w timeout env e :
  (JobRunner_wait timeout env w).2 ≠ Raised e ∧
  (JobRunner_close env w).2 ≠ Raised e.
Proof.
  unfold JobRunner_wait, JobRunner_close. unfold_monad. simpl.
  split; destruct (decide (_jobs (runner w) = ∅)) as [E|Hne]; try done.
  - rewrite asyncio_wait_run_all; [apply run_all_not_raised|].
    intros El%fmap_nil_inv. by apply elements_empty_inv, leibniz_equiv in El.
  - rewrite asyncio_wait_run_all; [apply run_all_not_raised|].
    intros El%fmap_nil_inv. by apply elements_empty_inv, leibniz_equiv in El.
Qed.

(** ** Steps that concern one job *)

Lemma reports_app j tr1 tr2 :
  reports j (tr1 ++ tr2) = reports j tr1 ++ reports j tr2.
Proof. apply omap_app. Qed.

Lemma reports_cons j ev tr :
  reports j (ev :: tr) =
    match report_of j ev with
    | Some c => c :: reports j tr
    | None => reports j tr
    end.
Proof. done. Qed.

Lemma reports_quiet j evs :
  Forall (λ ev, is_report ev = false) evs → reports j evs = [].
Proof.
  induction 1 as [|ev evs Hev _ IH]; [done|].
  rewrite reports_cons, IH. by destruct ev.
Qed.

Lemma finish_events_reports w j o r i :
  length (reports i (finish_events w j o r)) ≤ 1 ∧
  (i ≠ j → reports i (finish_events w j o r) = []).
Proof.
  unfold finish_events. destruct r as [v|e]; [by split; simpl; [lia|]|].
  destruct (cancelled (Raise e)); [by split; simpl; [lia|]|].
  destruct (_explicit_wait o); [by split; simpl; [lia|]|].
  unfold reports. simpl. destruct (decide (j = i)) as [->|Hne]; simpl.
  - split; [lia|done].
  - split; [lia|done].
Qed.

Lemma quiet_refl w : quiet w w.
Proof.
  split_and!; try done. exists []. split; [by rewrite app_nil_r|constructor].
Qed.

Lemma quiet_trans w1 w2 w3 : quiet w1 w2 → quiet w2 w3 → quiet w1 w3.
Proof.
  intros (Hd1 & Hr1 & Hh1 & e1 & Ht1 & Hq1) (Hd2 & Hr2 & Hh2 & e2 & Ht2 & Hq2).
  split_and!; try congruence. exists (e1 ++ e2). split.
  - by rewrite Ht2, Ht1, app_assoc.
  - by apply Forall_app.
Qed.

Lemma quiet_log ev w : is_report ev = false → quiet w (log ev w).
Proof.
  intros Hev. split_and!; try done. exists [ev]. split; [done|].
  by constructor.
Qed.

Lemma ends_job_quiet_l j w w1 w2 :
  quiet w w1 → ends_job j w1 w2 → ends_job j w w2.
Proof.
  intros (Hd1 & Hr1 & Hh1 & e1 & Ht1 & Hq1)
    (o & r & evs & Hj & Ht & Hd2 & Hr2 & Hh2 & Ht2 & Hn & Hi).
  exists o, r, (e1 ++ evs). rewrite Hh1, Hr1, Hd1 in *.
  split_and!; try done.
  - by rewrite Ht2, Ht1, app_assoc.
  - by rewrite reports_app, (reports_quiet j e1).
  - intros i Hne. by rewrite reports_app, (reports_quiet i e1), Hi.
Qed.

Lemma ends_job_quiet_r j w w1 w2 :
  ends_job j w w1 → quiet w1 w2 → ends_job j w w2.
Proof.
  intros (o & r & evs & Hj & Ht & Hd1 & Hr1 & Hh1 & Ht1 & Hn & Hi)
    (Hd2 & Hr2 & Hh2 & e2 & Ht2 & Hq2).
  exists o, r, (evs ++ e2). split_and!; try congruence.
  - by rewrite Ht2, Ht1, app_assoc.
  - by rewrite reports_app, (reports_quiet j e2), app_nil_r.
  - intros i Hne. by rewrite reports_app, (reports_quiet i e2), Hi.
Qed.

Lemma step_on_quiet_l j w w1 w2 :
  quiet w w1 → step_on j w1 w2 → step_on j w w2.
Proof.
  intros Hq [H|H]; [left|right];
    eauto using quiet_trans, ends_job_quiet_l.
Qed.

Lemma step_on_quiet_r j w w1 w2 :
  step_on j w w1 → quiet w1 w2 → step_on j w w2.
Proof.
  intros [H|H] Hq; [left|right];
    eauto using quiet_trans, ends_job_quiet_r.
Qed.

Lemma finished_world_ends w j o r :
  heap w !! j = Some o → _task o = Pending →
  ends_job j w (finished_world w j o r).
Proof.
  intros Hj Ht. exists o, r, (finish_events w j o r).
  split_and!; try done; apply finish_events_reports.
Qed.

Lemma loop_finish_step j r w : inv w → step_on j w (loop_finish j r w).
Proof.
  intros Hw. destruct (heap w !! j) as [o|] eqn:Hj.
  - destruct (_task o) eqn:Ht.
    + right. rewrite (loop_finish_view w j o) by done.
      by apply finished_world_ends.
    + left. rewrite loop_finish_not_pending; [apply quiet_refl|].
      intros o' ?. simplify_eq. by rewrite Ht.
  - left. rewrite loop_finish_not_pending; [apply quiet_refl|].
    intros o' ?. by simplify_eq.
Qed.

Lemma timeout_ok_dec d : {timeout_ok d} + {¬ timeout_ok d}.
Proof.
  unfold timeout_ok. destruct (decide (d = PyNone)); [by left; left|].
  destruct (is_number d); [by left; right|right]. by intros [?|?].
Qed.

(** The bounded wait, whatever the job and the timeout. *)
Lemma bounded_wait_step j d env w :
  inv w →
  step_on j w (bounded_wait j d env w).1 ∧
  ((bounded_wait j d env w).2 = Raised TimeoutError →
   ∀ o, heap (bounded_wait j d env w).1 !! j = Some o → _task o ≠ Pending).
Proof.
  intros Hw. destruct (timeout_ok_dec d) as [Hd|Hd].
  2: { rewrite bounded_wait_bad_timeout by done. split; [|done].
       left. by apply quiet_log. }
  destruct (heap w !! j) as [o|] eqn:Hj.
  2: { assert (bounded_wait j d env w = (log (EvTimeout j d) w, Blocked)) as ->.
       { unfold bounded_wait. unfold mbind at 1 2, M_bind.
         unfold emit at 1, update at 1. rewrite timeout_enter_ok by done.
         unfold await_task. unfold_monad. simpl. by rewrite Hj. }
       split; [|done]. left. by apply quiet_log. }
  destruct (_task o) as [|r0] eqn:Ht.
  - rewrite (bounded_wait_pending w j o) by done. cbn.
    assert (∀ w0 r, quiet w w0 → inv w0 →
              step_on j w (finished_world w0 j o r) ∧
              ∀ o', heap (finished_world w0 j o r) !! j = Some o' →
                    _task o' ≠ Pending) as Hfin.
    { intros w0 r Hq Hw0. pose proof Hq as (_ & _ & Hh & _).
      assert (heap w0 !! j = Some o) as Hj0 by by rewrite Hh.
      split.
      - right. eapply ends_job_quiet_l; [exact Hq|].
        by apply finished_world_ends.
      - intros o'. rewrite finished_world_lookup by done.
        by intros [= <-]. }
    assert (quiet w (log (EvTimeout j d) w)) as Hq1 by by apply quiet_log.
    assert (quiet w (log (EvExpired j) (log (EvTimeout j d) w))) as Hq2
      by (eapply quiet_trans; [exact Hq1|by apply quiet_log]).
    destruct env as [r|r|].
    + rewrite (loop_finish_view _ j o) by (try done; by apply inv_log).
      split; [|intros _]; apply Hfin; try done; by apply inv_log.
    + destruct (decide (d = PyNone)) as [E|Hn].
      * rewrite (loop_finish_view _ j o) by (try done; by apply inv_log).
        split; [|intros _]; apply Hfin; try done; by apply inv_log.
      * rewrite (loop_finish_view _ j o)
          by (try done; by repeat apply inv_log).
        split; [|intros _]; apply Hfin; try done; by repeat apply inv_log.
    + split; [by left|done].
  - rewrite (bounded_wait_finished w j o r0) by done. split.
    + left. by apply quiet_log.
    + intros _ o'. simpl. rewrite Hj. intros [= <-]. by rewrite Ht.
Qed.

Lemma closing_report_ends w0 w j o s :
  heap w !! j = Some o → _task o = Pending → quiet w w0 →
  ends_job j w
    (log (EvReport s (make_context "Job closing reached timeout" j
                        TimeoutError o))
       (finished_world w0 j o (Raise CancelledError))).
Proof.
  intros Hj Ht (Hd & Hr & Hh & e0 & Ht0 & Hq).
  exists o, (Raise CancelledError),
    (e0 ++ [EvCallbackError j CancelledError;
            EvReport s (make_context "Job closing reached timeout" j
                          TimeoutError o)]).
  unfold finished_world. simpl. rewrite Hd, Hr, Hh, Ht0.
  split_and!; try done.
  - by rewrite <- !app_assoc.
  - rewrite reports_app, (reports_quiet j e0) by done.
    unfold reports. simpl. rewrite decide_True by done. simpl. lia.
  - intros i Hne. rewrite reports_app, (reports_quiet i e0) by done.
    unfold reports. simpl. by rewrite decide_False.
Qed.

(** [close], whatever the job. *)
Lemma Job_close_step j env w : inv w → step_on j w (Job_close j env w).1.
Proof.
  intros Hw. destruct (heap w !! j) as [o|] eqn:Hj.
  2: { left. assert (Job_close j env w = (log (EvCancel j) w, Blocked)) as ->.
       { unfold Job_close, self_manager. unfold_monad. simpl. by rewrite Hj. }
       by apply quiet_log. }
  destruct (_manager o) as [[]|] eqn:Hm.
  2: { left. rewrite (Job_close_detached w j o) by done. by apply quiet_log. }
  assert (quiet w (log (EvTimeout j (_timeout (runner w)))
                     (log (EvCancel j) w))) as Hq.
  { eapply quiet_trans; by apply quiet_log. }
  destruct (timeout_ok_dec (_timeout (runner w))) as [Hd|Hd].
  2: { left. rewrite (Job_close_attached w j o) by done.
       by rewrite bounded_wait_bad_timeout. }
  destruct (_task o) as [|r0] eqn:Ht.
  - assert (∀ r, step_on j w (Job_close j (InTime r) w).1) as Hin.
    { intros r. rewrite (Job_close_pending_in_time w j o) by done. cbn.
      right. eapply ends_job_quiet_l; [exact Hq|].
      by apply finished_world_ends. }
    destruct env as [r|r|].
    + apply Hin.
    + destruct (decide (_timeout (runner w) = PyNone)) as [E|Hn].
      * rewrite (Job_close_late_none w j o) by done. apply Hin.
      * rewrite (Job_close_pending_late w j o)
          by (try done; by apply number_of_ok).
        assert (quiet w (log (EvExpired j)
                           (log (EvTimeout j (_timeout (runner w)))
                              (log (EvCancel j) w)))) as Hq'.
        { eapply quiet_trans; [exact Hq|by apply quiet_log]. }
        right. destruct r as [v|e]; [|destruct e]; cbn;
          try (eapply ends_job_quiet_l; [exact Hq'|];
               by apply finished_world_ends).
        by apply closing_report_ends.
    + left. by rewrite (Job_close_pending_never w j o).
  - left. pose proof (inv_jobs w Hw j o Hj) as Hok. unfold job_ok in Hok.
    rewrite Ht, Hm in Hok.
    assert (r0 = Raise CancelledError) as ->.
    { destruct r0 as [v|e]; [done|]. by destruct e. }
    by rewrite (Job_close_cancelled w j o).
Qed.

Lemma Job_close_quiet j env w :
  inv w → (∀ o, heap w !! j = Some o → _task o ≠ Pending) →
  quiet w (Job_close j env w).1.
Proof.
  intros Hw Hnp. destruct (Job_close_step j env w Hw) as [H|H]; [done|].
  destruct H as (o & r & evs & Hj & Ht & _). by destruct (Hnp o Hj).
Qed.

Lemma Job__wait_split j timeout env w :
  (Job__wait j timeout env w).1 =
    match (bounded_wait j timeout env w).2 with
    | Raised TimeoutError =>
        (Job_close j env (bounded_wait j timeout env w).1).1
    | _ => (bounded_wait j timeout env w).1
    end.
Proof.
  unfold Job__wait, try_except.
  destruct (bounded_wait j timeout env w) as [w2 [v|e|]]; simpl; try done.
  destruct e; try done. unfold_monad.
  by destruct (Job_close j env w2) as [w3 [[]|e'|]].
Qed.

(** [_wait], whatever the job. *)
Lemma Job__wait_step j timeout env w :
  inv w → step_on j w (Job__wait j timeout env w).1.
Proof.
  intros Hw. rewrite Job__wait_split.
  destruct (bounded_wait_step j timeout env w Hw) as [Hs Hnp].
  pose proof (preserves_bounded_wait keeps_inv keeps_inv_refl keeps_inv_trans
                inv_log inv_loop_finish j timeout env w Hw) as Hw2.
  destruct (bounded_wait j timeout env w) as [w2 [v|e|]]; simpl in *;
    try done.
  destruct e; try done.
  eapply step_on_quiet_r; [exact Hs|].
  apply Job_close_quiet; [done|by apply Hnp].
Qed.

(** ** Every job is reported about at most once *)

Lemma reported_once_step j w w' :
  reported_once w → step_on j w w' → reported_once w'.
Proof.
  intros Hro [(Hd & Hr & Hh & evs & Ht & Hq)|
              (o & r & evs & Hj & Hp & Hd & Hr & Hh & Ht & Hn & Hi)] i.
  - specialize (Hro i). rewrite Hh, Ht, reports_app, (reports_quiet i evs),
      app_nil_r by done. exact Hro.
  - specialize (Hro i). rewrite Hh, Ht, reports_app.
    destruct (decide (i = j)) as [->|Hne].
    + rewrite list_lookup_insert_eq by by eapply lookup_lt_Some.
      rewrite Hj, Hp in Hro. simpl in *. by rewrite Hro.
    + rewrite list_lookup_insert_ne by congruence.
      rewrite (Hi i Hne), app_nil_r. exact Hro.
Qed.

Lemma run_all_reported_once {A} (f : nat → M A) l w :
  (∀ j w, inv w → step_on j w (f j w).1) →
  (∀ j, preserves keeps_inv (f j)) →
  inv w → reported_once w →
  reported_once (run_all (f <$> l) w).1.
Proof.
  intros Hstep Hinv. revert w.
  induction l as [|j l IH]; intros w Hw Hro; [done|].
  rewrite fmap_cons. simpl.
  pose proof (Hstep j w Hw) as Hs. pose proof (Hinv j w Hw) as Hw1.
  destruct (f j w) as [w1 r1]. simpl in *.
  assert (reported_once (run_all (f <$> l) w1).1) as H
    by (apply IH; [done|by eapply reported_once_step]).
  by destruct r1.
Qed.

Lemma reported_once_same w w' :
  heap w' = heap w → trace w' = trace w → reported_once w → reported_once w'.
Proof. intros Hh Ht Hro i. rewrite Hh, Ht. apply Hro. Qed.

Lemma reported_once_perform a w :
  inv w → reported_once w → reported_once (perform a w).
Proof.
  intros Hw Hro. destruct a as [stack|i t env|i env|t env|env|d|h|i r]; simpl.
  - unfold JobRunner_exec, Job_init. unfold_monad. simpl. intros i. simpl.
    specialize (Hro i).
    destruct (decide (i < length (heap w))) as [Hlt|Hge].
    + by rewrite lookup_app_l.
    + rewrite lookup_ge_None_2 in Hro by lia.
      destruct (decide (i = length (heap w))) as [->|Hne].
      * by rewrite list_lookup_middle.
      * rewrite lookup_ge_None_2; [done|]. rewrite length_app. simpl. lia.
  - rewrite Job_wait_unfold.
    eapply reported_once_step; [|apply Job__wait_step].
    + intros k. specialize (Hro k). simpl.
      destruct (decide (k = i)) as [->|Hne].
      * rewrite list_lookup_alter_eq. by destruct (heap w !! i).
      * by rewrite list_lookup_alter_ne by congruence.
    + by apply inv_set_explicit_wait.
  - eapply reported_once_step; [done|]. by apply Job_close_step.
  - unfold JobRunner_wait. unfold_monad. simpl.
    destruct (decide (_jobs (runner w) = ∅)) as [E|Hne]; [done|].
    rewrite asyncio_wait_run_all.
    + apply (run_all_reported_once (λ j, Job__wait j t (env j))); try done.
      * intros. by apply Job__wait_step.
      * intros j. apply inv_Job__wait.
    + intros El%fmap_nil_inv.
      by apply elements_empty_inv, leibniz_equiv in El.
  - unfold JobRunner_close. unfold_monad. simpl.
    destruct (decide (_jobs (runner w) = ∅)) as [E|Hne]; [done|].
    rewrite asyncio_wait_run_all.
    + apply (run_all_reported_once (λ j, Job_close j (env j))); try done.
      * intros. by apply Job_close_step.
      * intros j. apply inv_Job_close.
    + intros El%fmap_nil_inv.
      by apply elements_empty_inv, leibniz_equiv in El.
  - by apply (reported_once_same w).
  - unfold JobRunner_set_exception_handler.
    case_match; by apply (reported_once_same w).
  - eapply reported_once_step; [done|]. by apply loop_finish_step.
Qed.

Lemma reachable_reported_once w : reachable w → reported_once w.
Proof.
  induction 1 as [debug timeout|a w Hr IH].
  - intros i. by destruct i.
  - apply reported_once_perform; [by apply reachable_inv|done].
Qed.

(** X8. The failure of a job is reported at most once: in every
    reachable world the handlers have received at most one "Job
    processing failed" about a job.  No job is reported about while its
    task is pending, nor is anything that is no job of the runner.  One
    [close()] on a job, from its start to its end, adds at most one
    report about that job and none about another job; so does one
    [_wait]. *)
Theorem failure_reported_at_most_once w j :
  reachable w →
  length (failures j (trace w)) ≤ 1 ∧
  (∀ o, heap w !! j = Some o → _task o = Pending → reports j (trace w) = []) ∧
  (heap w !! j = None → reports j (trace w) = []) ∧
  (∀ env i, ∃ cs,
     reports i (trace (Job_close j env w).1) = reports i (trace w) ++ cs ∧
     length cs ≤ 1 ∧ (i ≠ j → cs = [])) ∧
  (∀ timeout env i, ∃ cs,
     reports i (trace (Job__wait j timeout env w).1)
     = reports i (trace w) ++ cs ∧
     length cs ≤ 1 ∧ (i ≠ j → cs = [])).
Proof.
  intros Hr. pose proof (reachable_reported_once w Hr j) as Hro.
  assert (∀ w' i, step_on j w w' →
            ∃ cs, reports i (trace w') = reports i (trace w) ++ cs ∧
                  length cs ≤ 1 ∧ (i ≠ j → cs = [])) as Hstep.
  { intros w' i [(_ & _ & _ & evs & Ht & Hq)|
                 (o & r & evs & _ & _ & _ & _ & _ & Ht & Hn & Hrep)].
    - exists []. rewrite Ht, reports_app, (reports_quiet i evs) by done.
      split_and!; [done|simpl; lia|done].
    - exists (reports i evs). rewrite Ht, reports_app.
      split_and!; [done| |by apply Hrep].
      destruct (decide (i = j)) as [->|Hne]; [done|].
      rewrite Hrep by done. simpl. lia. }
  split_and!.
  - unfold failures. etrans; [apply length_filter|].
    destruct (heap w !! j) as [o|]; [destruct (Task_done (_task o))|];
      try done; rewrite Hro; simpl; lia.
  - intros o Hj Ht. by rewrite Hj, Ht in Hro.
  - intros Hj. by rewrite Hj in Hro.
  - intros env i. apply Hstep, Job_close_step. by apply reachable_inv.
  - intros timeout env i. apply Hstep, Job__wait_step. by apply reachable_inv.
Qed.

Lemma failure_reported_at_most_once_witness :
  let w := perform (DoFinish 0 (Raise (UserError 1))) world1 in
  length (failures 0 (trace w)) ≤ 1 ∧
  ∃ cs, reports 0 (trace (Job_close 0 Never w).1)
        = reports 0 (trace w) ++ cs ∧ length cs ≤ 1.
Proof.
  intros w.
  assert (reachable w) as Hr by exact (reach_step _ _ reachable_world1).
  destruct (failure_reported_at_most_once w 0 Hr) as (H1 & _ & _ & H4 & _).
  split; [exact H1|].
  destruct (H4 Never 0) as (cs & Hcs & Hlen & _). by exists cs.
Defined.

(** ** Bulk operations, job by job *)

Lemma same_for_refl j w : same_for j w w.
Proof. by split_and!. Qed.

Lemma same_for_trans j w1 w2 w3 :
  same_for j w1 w2 → same_for j w2 w3 → same_for j w1 w3.
Proof.
  intros (?&?&?&?&?) (?&?&?&?&?). split_and!; try congruence. by etrans.
Qed.

Lemma step_on_same_for i j w w' :
  i ≠ j → step_on i w w' → same_for j w w'.
Proof.
  intros Hne [(Hd & Hr & Hh & evs & Ht & Hq)|
              (o & r & evs & Hi & Hp & Hd & Hr & Hh & Ht & Hn & Hrep)].
  - split_and!; try congruence.
    + by rewrite Ht, reports_app, (reports_quiet j evs), app_nil_r.
    + rewrite Ht. by apply prefix_app_r.
  - split_and!.
    + rewrite Hh. by apply list_lookup_insert_ne.
    + rewrite Ht, reports_app, Hrep, app_nil_r; [done|congruence].
    + by rewrite Hr.
    + by rewrite Hr.
    + rewrite Ht. by apply prefix_app_r.
Qed.

Lemma run_all_app {A} (cs1 cs2 : list (M A)) w :
  (run_all (cs1 ++ cs2) w).1 = (run_all cs2 (run_all cs1 w).1).1.
Proof.
  revert w. induction cs1 as [|c cs1 IH]; intros w; simpl; [done|].
  destruct (c w) as [w1 [a|e|]]; simpl; apply IH.
Qed.

Lemma run_all_inv {A} (f : nat → M A) l w :
  (∀ j, preserves keeps_inv (f j)) → inv w → inv (run_all (f <$> l) w).1.
Proof.
  intros Hf. apply (preserves_run_all keeps_inv keeps_inv_refl keeps_inv_trans).
  apply Forall_fmap, Forall_forall. intros j _. apply Hf.
Qed.

Lemma run_all_same_for {A} (f : nat → M A) l j w :
  (∀ i w, inv w → step_on i w (f i w).1) →
  (∀ i, preserves keeps_inv (f i)) →
  inv w → j ∉ l → same_for j w (run_all (f <$> l) w).1.
Proof.
  intros Hstep Hinv. revert w.
  induction l as [|i l IH]; intros w Hw Hj; [apply same_for_refl|].
  apply not_elem_of_cons in Hj as [Hne Hj].
  rewrite fmap_cons. simpl.
  pose proof (Hstep i w Hw) as Hs. pose proof (Hinv i w Hw) as Hw1.
  destruct (f i w) as [w1 r1]. simpl in *.
  assert (same_for j w (run_all (f <$> l) w1).1) as H.
  { eapply same_for_trans; [|by apply IH].
    eapply step_on_same_for; [|exact Hs]. congruence. }
  by destruct r1.
Qed.

(** The run of a list of coroutines, seen from one of its jobs. *)
Lemma run_all_at {A} (f : nat → M A) l j w :
  (∀ i w, inv w → step_on i w (f i w).1) →
  (∀ i, preserves keeps_inv (f i)) →
  inv w → NoDup l → j ∈ l →
  ∃ w1, inv w1 ∧ same_for j w w1 ∧
        same_for j (f j w1).1 (run_all (f <$> l) w).1.
Proof.
  intros Hstep Hinv Hw Hnd Hj.
  apply list_elem_of_split in Hj as (l1 & l2 & ->).
  apply NoDup_app in Hnd as (_ & Hl1 & Hl2%NoDup_cons_1_1).
  exists (run_all (f <$> l1) w).1. split_and!.
  - by apply run_all_inv.
  - apply run_all_same_for; try done. intros Hin. apply (Hl1 j Hin). by left.
  - rewrite fmap_app, run_all_app, fmap_cons. simpl.
    pose proof (Hinv j _ (run_all_inv f l1 w Hinv Hw)) as Hw2.
    destruct (f j (run_all (f <$> l1) w).1) as [w2 r2]. simpl in *.
    assert (same_for j w2 (run_all (f <$> l2) w2).1) as H
      by by apply run_all_same_for.
    by destruct r2.
Qed.

Lemma step_on_timeout j w w' :
  step_on j w w' → _timeout (runner w') = _timeout (runner w).
Proof.
  intros [(_ & Hr & _)|(o & r & evs & _ & _ & _ & Hr & _)]; by rewrite Hr.
Qed.

Lemma Job_close_not_blocked w j o env :
  inv w → heap w !! j = Some o → _task o = Pending →
  timeout_ok (_timeout (runner w)) → env ≠ Never →
  (Job_close j env w).2 ≠ Blocked.
Proof.
  intros Hw Hj Ht Hd Hne.
  destruct (inv_pending w j o Hw Hj Ht) as [Hm _].
  assert (∀ r, (Job_close j (InTime r) w).2 ≠ Blocked) as Hin.
  { intros r. rewrite (Job_close_pending_in_time w j o) by done.
    destruct r as [v|e]; [done|]. by destruct e. }
  destruct env as [r|r|]; [apply Hin| |done].
  destruct (decide (_timeout (runner w) = PyNone)) as [E|Hn].
  - rewrite (Job_close_late_none w j o) by done. apply Hin.
  - rewrite (Job_close_pending_late w j o)
      by (try done; by apply number_of_ok).
    destruct r as [v|e]; [done|]. by destruct e.
Qed.

Lemma run_all_close_returns env l w :
  inv w → timeout_ok (_timeout (runner w)) → NoDup l →
  (∀ j, j ∈ l → ∃ o, heap w !! j = Some o ∧ _task o = Pending) →
  (∀ j, j ∈ l → env j ≠ Never) →
  (run_all ((λ j, Job_close j (env j)) <$> l) w).2 = Returned tt.
Proof.
  revert w. induction l as [|j l IH]; intros w Hw Hd Hnd Hl Henv; [done|].
  apply NoDup_cons in Hnd as [Hj Hnd].
  destruct (Hl j) as (o & Ho & Ht); [by left|].
  pose proof (Job_close_not_blocked w j o (env j) Hw Ho Ht Hd) as Hnb.
  pose proof (Job_close_step j (env j) w Hw) as Hs.
  pose proof (inv_Job_close j (env j) w Hw) as Hw1.
  rewrite fmap_cons. simpl.
  destruct (Job_close j (env j) w) as [w1 r1]. simpl in *.
  assert ((run_all ((λ j, Job_close j (env j)) <$> l) w1).2 = Returned tt)
    as Hrest.
  { apply IH; try done.
    - by rewrite (step_on_timeout j w w1).
    - intros i Hi. destruct (Hl i) as (oi & Hoi & Hti); [by right|].
      exists oi. split; [|done].
      destruct (step_on_same_for j i w w1) as (Hh & _); [|done|congruence].
      intros ->. done.
    - intros i Hi. apply Henv. by right. }
  destruct r1 as [[]|e|]; try done. destruct Hnb; [by apply Henv; left|done].
Qed.

Lemma registry_empty_of_all_done w :
  inv w →
  (∀ j o, heap w !! j = Some o → Task_done (_task o) = true) →
  _jobs (runner w) = ∅.
Proof.
  intros Hw Hall. apply leibniz_equiv, elem_of_equiv_empty. intros j Hj.
  apply (inv_registry w Hw) in Hj as (o & Ho & Ht).
  specialize (Hall j o Ho). by rewrite Ht in Hall.
Qed.

Lemma JobRunner_close_run_all env w :
  _jobs (runner w) ≠ ∅ →
  JobRunner_close env w =
    run_all ((λ j, Job_close j (env j)) <$> elements (_jobs (runner w))) w.
Proof.
  intros Hne. unfold JobRunner_close. unfold_monad. simpl.
  rewrite decide_False by done. rewrite asyncio_wait_run_all; [done|].
  intros El%fmap_nil_inv. by apply elements_empty_inv, leibniz_equiv in El.
Qed.

Lemma JobRunner_wait_run_all timeout env w :
  _jobs (runner w) ≠ ∅ →
  JobRunner_wait timeout env w =
    run_all ((λ j, Job__wait j timeout (env j)) <$>
             elements (_jobs (runner w))) w.
Proof.
  intros Hne. unfold JobRunner_wait. unfold_monad. simpl.
  rewrite decide_False by done. rewrite asyncio_wait_run_all; [done|].
  intros El%fmap_nil_inv. by apply elements_empty_inv, leibniz_equiv in El.
Qed.

(** X9. If none of the registered tasks hangs for ever,
    [JobRunner.close()] returns, with every job of the runner done and
    the registry empty. *)
Theorem close_returns_with_empty_runner w env :
  reachable w → timeout_ok (_timeout (runner w)) →
  (∀ j, j ∈ _jobs (runner w) → env j ≠ Never) →
  let w' := (JobRunner_close env w).1 in
  (JobRunner_close env w).2 = Returned tt ∧
  _jobs (runner w') = ∅ ∧
  (JobRunner_len w').2 = Returned 0 ∧
  ∀ j o, heap w' !! j = Some o → Task_done (_task o) = true.
Proof.
  intros Hr Hd Henv. simpl.
  pose proof (reachable_inv w Hr) as Hw.
  assert ((JobRunner_close env w).2 = Returned tt) as Hres.
  { destruct (decide (_jobs (runner w) = ∅)) as [E|Hne].
    - unfold JobRunner_close. unfold_monad. simpl. by rewrite decide_True.
    - rewrite JobRunner_close_run_all by done.
      apply run_all_close_returns; try done.
      + apply NoDup_elements.
      + intros j Hj%elem_of_elements. by apply (inv_registry w Hw).
      + intros j Hj%elem_of_elements. by apply Henv. }
  pose proof (inv_perform (DoClose env) w Hw) as Hw'. simpl in Hw'.
  assert (∀ j o, heap (JobRunner_close env w).1 !! j = Some o →
                 Task_done (_task o) = true) as Hall.
  { intros j o' Hj'.
    destruct (preserves_JobRunner_close keeps_shape keeps_shape_refl
                keeps_shape_trans (λ ev w _, keeps_shape_refl w)
                keeps_shape_loop_finish env w) as [Hlen _].
    assert (is_Some (heap w !! j)) as [o Hj].
    { apply lookup_lt_is_Some. rewrite <- Hlen. by eapply lookup_lt_Some. }
    destruct (_task o) as [|r] eqn:Ht.
    - destruct (runner_close_all_done w env Hr Hd Hres j)
        as (o'' & Hj'' & Hd''); [by apply (inv_registry w Hw); eauto|].
      by simplify_eq.
    - destruct (keeps_finished_perform (DoClose env) w j o Hj)
        as (o'' & Hj'' & Ht''); [by rewrite Ht|].
      simpl in Hj''. simplify_eq. by rewrite Ht'', Ht. }
  split_and!; try done.
  - by apply registry_empty_of_all_done.
  - unfold JobRunner_len. unfold_monad. simpl.
    by rewrite (registry_empty_of_all_done _ Hw' Hall), size_empty.
Qed.

Lemma close_returns_with_empty_runner_witness :
  (JobRunner_close (λ _, Late (Raise CancelledError)) world1).2 = Returned tt ∧
  _jobs (runner (JobRunner_close (λ _, Late (Raise CancelledError)) world1).1)
  = ∅.
Proof.
  assert (timeout_ok (_timeout (runner world1))) as Hd by (by right).
  destruct (close_returns_with_empty_runner world1
              (λ _, Late (Raise CancelledError)) reachable_world1 Hd)
    as (H1 & H2 & _); [discriminate|].
  split; [exact H1|exact H2].
Defined.



(** X11. A bulk wait is no explicit wait: a registered job whose task
    fails while [JobRunner.wait] runs, and on which nobody has called
    [wait], is reported as "Job processing failed" to the handler of the
    runner, once, with its exception and traceback. *)
Theorem bulk_wait_reports_failure w timeout env j o e :
  reachable w → timeout_ok timeout →
  heap w !! j = Some o → _task o = Pending → _explicit_wait o = false →
  env j = InTime (Raise e) → e ≠ CancelledError →
  let w' := (JobRunner_wait timeout env w).1 in
  task_of j w' = Some (Finished (Raise e)) ∧
  reports j (trace w') =
    [mkContext "Job processing failed" j e (_source_traceback o)] ∧
  EvReport (sink_of w)
    (mkContext "Job processing failed" j e (_source_traceback o))
  ∈ trace w'.
Proof.
  intros Hr HT Ho Ht Hx Henv He. simpl.
  pose proof (reachable_inv w Hr) as Hw.
  destruct (inv_pending w j o Hw Ho Ht) as [_ Hj].
  assert (_jobs (runner w) ≠ ∅) as Hne.
  { intros E. rewrite E in Hj. by apply elem_of_empty in Hj. }
  rewrite JobRunner_wait_run_all by done.
  set (f := λ j, Job__wait j timeout (env j)).
  destruct (run_all_at f (elements (_jobs (runner w))) j w)
    as (w1 & Hw1 & (Hh1 & Hr1 & Hs1 & _ & _) & (Hh2 & Hr2 & _ & _ & Hp2));
    [by intros; apply Job__wait_step|intros i; apply inv_Job__wait|done
    |apply NoDup_elements|by apply elem_of_elements|].
  assert (reports j (trace w1) = []) as Hnone.
  { rewrite Hr1. pose proof (reachable_reported_once w Hr j) as Hro.
    by rewrite Ho, Ht in Hro. }
  assert (sink_of w1 = sink_of w) as Hsink by (unfold sink_of; by rewrite Hs1).
  assert (cancelled (Raise e) = false) as Hc by by destruct e.
  change (f j w1) with (Job__wait j timeout (env j) w1) in Hh2, Hr2, Hp2.
  rewrite Henv in Hh2, Hr2, Hp2.
  rewrite (Job__wait_pending_in_time w1 j o) in Hh2, Hr2, Hp2
    by (try done; congruence).
  assert (∀ w0 : World,
    (let w' := finished_world w0 j o (Raise e) in
     match Raise e with
     | Raise TimeoutError => (log (EvCancel j) w', Raised AttributeError)
     | _ => (w', outcome (Raise e))
     end).1 = (if decide (e = TimeoutError)
               then log (EvCancel j) (finished_world w0 j o (Raise e))
               else finished_world w0 j o (Raise e))) as Hworld.
  { intros w0. case_decide as E; [by subst|]. by destruct e. }
  rewrite Hworld in Hh2, Hr2, Hp2. clear Hworld.
  assert (finish_events (log (EvTimeout j timeout) w1) j o (Raise e)
          = [EvReport (sink_of w)
               (mkContext "Job processing failed" j e (_source_traceback o))])
    as Hev.
  { unfold finish_events. rewrite Hc, Hx. by rewrite <- Hsink. }
  split_and!.
  - unfold task_of. rewrite Hh2. case_decide; cbn;
      by rewrite finished_world_lookup by (simpl; congruence).
  - rewrite Hr2. case_decide; unfold finished_world; cbn [trace log];
      rewrite !reports_app, Hnone, Hev; unfold reports; simpl;
      by rewrite decide_True.
  - eapply elem_of_prefix; [|exact Hp2].
    case_decide; unfold finished_world; cbn [trace log]; rewrite Hev;
      rewrite !elem_of_app, !list_elem_of_singleton; auto.
Qed.

Lemma bulk_wait_reports_failure_witness :
  reports 0
    (trace (JobRunner_wait PyNone (λ _, InTime (Raise (UserError 3)))
              world1).1)
  = [mkContext "Job processing failed" 0 (UserError 3)
       (Some ["serve"; "handler"]%string)].
Proof.
  assert (timeout_ok PyNone) as HT by (by left).
  destruct (bulk_wait_reports_failure world1 PyNone
              (λ _, InTime (Raise (UserError 3))) 0 _ (UserError 3)
              reachable_world1 HT world1_job0 eq_refl eq_refl eq_refl)
    as (_ & H2 & _); [discriminate|].
  exact H2.
Defined.

(** ** A wait or a close that comes back leaves the job done *)

Lemma Job__wait_done w j o timeout env :
  inv w → heap w !! j = Some o → timeout_ok timeout →
  (Job__wait j timeout env w).2 ≠ Blocked →
  ∃ o', heap (Job__wait j timeout env w).1 !! j = Some o' ∧
        Task_done (_task o') = true.
Proof.
  intros Hw Hj Hd Hnb.
  assert (∀ w2 o2, heap w2 !! j = Some o2 → Task_done (_task o2) = true →
            ∃ o', heap (Job_close j env w2).1 !! j = Some o' ∧
                  Task_done (_task o') = true) as Hclose.
  { intros w2 o2 Hj2 Hd2.
    destruct (preserves_Job_close keeps_finished keeps_finished_refl
                keeps_finished_trans
                (λ ev w _, keeps_finished_heap w (log ev w) eq_refl)
                keeps_finished_loop_finish j env w2 j o2 Hj2 Hd2)
      as (o' & Hj' & Ht').
    exists o'. split; [done|]. by rewrite Ht'. }
  assert ((bounded_wait j timeout env w).2 ≠ Blocked →
          ∃ o2, heap (bounded_wait j timeout env w).1 !! j = Some o2 ∧
                Task_done (_task o2) = true) as Hbw.
  { destruct (_task o) as [|r0] eqn:Ht.
    - rewrite (bounded_wait_pending w j o) by done. cbn.
      destruct env as [r|r|]; [| |done]; intros _.
      + rewrite (loop_finish_view _ j o) by (try done; by apply inv_log).
        exists (finished_job o r).
        split; [by apply (finished_world_lookup _ j o)|done].
      + destruct (decide (timeout = PyNone)); cbn;
          rewrite (loop_finish_view _ j o)
            by (try done; by repeat apply inv_log);
          exists (finished_job o r);
          (split; [by apply (finished_world_lookup _ j o)|done]).
    - rewrite (bounded_wait_finished w j o r0) by done. intros _.
      exists o. split; [done|]. by rewrite Ht. }
  rewrite Job__wait_split. unfold Job__wait, try_except in Hnb.
  destruct (bounded_wait j timeout env w) as [w2 [v|e|]]; simpl in *;
    [by apply Hbw|destruct (Hbw ltac:(done)) as (o2 & Hj2 & Hd2)|done].
  destruct e; eauto.
Qed.

(** X12. Whenever [wait(T)] or [close()] on a job comes back to its
    caller, by returning or by raising, the job is done; a wait whose
    deadline has expired never leaves the task running.  The deadline,
    or the grace period, is a number or [None]. *)
Theorem wait_and_close_leave_job_done w j o env T :
  reachable w → heap w !! j = Some o →
  (timeout_ok T → (Job_wait j T env w).2 ≠ Blocked →
   Job_done j (Job_wait j T env w).1
   = ((Job_wait j T env w).1, Returned true)) ∧
  (timeout_ok (_timeout (runner w)) → (Job_close j env w).2 ≠ Blocked →
   Job_done j (Job_close j env w).1
   = ((Job_close j env w).1, Returned true)).
Proof.
  intros Hr Hj. apply reachable_inv in Hr. split.
  - intros HT Hnb. rewrite Job_wait_unfold in *.
    destruct (Job__wait_done (set_job j (set_explicit_wait true) w) j
                (set_explicit_wait true o) T env)
      as (o' & Hj' & Hd'); try done.
    + by apply inv_set_explicit_wait.
    + by apply set_explicit_wait_lookup.
    + unfold Job_done. unfold_monad. by rewrite Hj', Hd'.
  - intros Hd Hnb.
    destruct (Job_close_done w j o env) as (o' & Hj' & Hd'); try done.
    unfold Job_done. unfold_monad. by rewrite Hj', Hd'.
Qed.

Lemma wait_and_close_leave_job_done_witness :
  Job_done 0 (Job_wait 0 (PyInt 2) (Late (Return PyNone)) world1).1
  = ((Job_wait 0 (PyInt 2) (Late (Return PyNone)) world1).1, Returned true).
Proof.
  assert (timeout_ok (PyInt 2)) as HT by (by right).
  apply (wait_and_close_leave_job_done world1 0 _ (Late (Return PyNone))
           (PyInt 2) reachable_world1 world1_job0); [exact HT|].
  vm_compute. discriminate.
Defined.

(** ** Reports and the handler of the moment *)

(** X13. The handler is looked up when the report is made: after
    [set_exception_handler(h)] with a callable or [None], the failure of
    a job that nobody waits for goes to [h], or to the handler of the
    loop for [None]; after a rejected [set_exception_handler] it goes
    where it went before. *)
Theorem failure_goes_to_current_handler w j o e h :
  reachable w → heap w !! j = Some o → _task o = Pending →
  _explicit_wait o = false → e ≠ CancelledError →
  let w1 := (JobRunner_set_exception_handler h w).1 in
  trace (loop_finish j (Raise e) w1) =
    trace w ++
    [EvReport match h with
              | PyFunc f => Handler f
              | PyNone => LoopDefault
              | _ => sink_of w
              end
       (mkContext "Job processing failed" j e (_source_traceback o))].
Proof.
  intros Hr Hj Ht Hx He. simpl.
  pose proof (inv_perform (DoSetExceptionHandler h) w (reachable_inv w Hr))
    as Hw1. simpl in Hw1.
  assert (heap (JobRunner_set_exception_handler h w).1 = heap w ∧
          trace (JobRunner_set_exception_handler h w).1 = trace w ∧
          sink_of (JobRunner_set_exception_handler h w).1
          = match h with
            | PyFunc f => Handler f
            | PyNone => LoopDefault
            | _ => sink_of w
            end) as (Hh & Htr & Hs).
  { unfold JobRunner_set_exception_handler. by destruct h. }
  rewrite (loop_finish_view _ j o) by (try done; by rewrite Hh).
  unfold finished_world, finish_events.
  assert (cancelled (Raise e) = false) as -> by by destruct e.
  simpl. by rewrite Hx, Htr, Hs.
Qed.

Lemma failure_goes_to_current_handler_witness :
  trace (loop_finish 0 (Raise (UserError 4))
           (JobRunner_set_exception_handler (PyFunc 9) world1).1)
  = trace world1 ++
    [EvReport (Handler 9)
       (mkContext "Job processing failed" 0 (UserError 4)
          (Some ["serve"; "handler"]%string))].
Proof.
  apply (failure_goes_to_current_handler world1 0 _ (UserError 4) (PyFunc 9)
           reachable_world1 world1_job0); try reflexivity.
  discriminate.
Defined.

(** ** A timeout that is not a number *)

(** X14. [set_timeout] and [wait] take any value for the duration, and a
    value that is neither [None] nor a number comes out as a [TypeError]
    where the timer is armed: [close()] has requested the cancellation by
    then and [wait] has set the explicit-wait flag, but the task has not
    been waited for and the job is still registered. *)
Theorem timeout_not_a_number w j o d env :
  reachable w → heap w !! j = Some o → _task o = Pending → ¬ timeout_ok d →
  let w1 := (JobRunner_set_timeout d w).1 in
  Job_close j env w1
  = (log (EvTimeout j d) (log (EvCancel j) w1), Raised TypeError) ∧
  Job_wait j d env w
  = (log (EvTimeout j d) (set_job j (set_explicit_wait true) w),
     Raised TypeError) ∧
  (j ∈ _jobs (runner (Job_close j env w1).1)) ∧
  (j ∈ _jobs (runner (Job_wait j d env w).1)).
Proof.
  intros Hr Hj Ht Hd w1. apply reachable_inv in Hr.
  destruct (inv_pending w j o Hr Hj Ht) as [Hm Hin].
  assert (Job_close j env w1
          = (log (EvTimeout j d) (log (EvCancel j) w1), Raised TypeError))
    as Hc.
  { rewrite (Job_close_attached _ j o) by done.
    change (_timeout (runner w1)) with d.
    by rewrite bounded_wait_bad_timeout. }
  assert (Job_wait j d env w
          = (log (EvTimeout j d) (set_job j (set_explicit_wait true) w),
             Raised TypeError)) as Hwt.
  { rewrite Job_wait_unfold. unfold Job__wait, try_except.
    by rewrite bounded_wait_bad_timeout. }
  rewrite Hc, Hwt. by split_and!.
Qed.

Lemma timeout_not_a_number_witness :
  Job_close 0 Never (JobRunner_set_timeout (PyStr "1s") world1).1
  = (log (EvTimeout 0 (PyStr "1s"))
       (log (EvCancel 0) (JobRunner_set_timeout (PyStr "1s") world1).1),
     Raised TypeError).
Proof.
  apply (timeout_not_a_number world1 0 _ (PyStr "1s") Never
           reachable_world1 world1_job0 eq_refl).
  by intros [?|?].
Defined.

(** ** The bulk operations wait for every task *)









(** ** The bulk wait runs the inner wait of every job *)





